(** * pystiche: neural style transfer without [pystiche]

    A shallow embedding of the code of
    [examples_jupyter/beginner/example_nst_without_pystiche.ipynb]
    (the [MultiLayerEncoder], the [MultiLayerLoss] family, the Gram matrix
    and the optimisation [closure]) and of the image pyramid that
    [examples_jupyter/advanced] drives, with the properties the
    specification states about them. *)

From Stdlib Require Import Ascii String QArith Qcanon.
From stdpp Require Import base list strings gmap sets pretty sorting.

Close Scope Q_scope.
Close Scope Qc_scope.
Close Scope Z_scope.

(** ** Python values shared by the whole development *)

(** The exceptions the modelled code raises: those of Python's built-ins
    and of the [raise] statements of the notebook, with their messages.
    [TorchError] stands for an exception raised inside a [torch] function,
    whatever its class; its message is not modelled. *)
Inductive exn : Type :=
  | ValueError (msg : string)
  | IndexError
  | KeyError (key : string)
  | RuntimeError (msg : string)
  | ZeroDivisionError
  | AttributeError (name : string)
  | NotImplementedError
  | TorchError.

Inductive result (A : Type) : Type :=
  | Ok (a : A)
  | Raise (e : exn).
Arguments Ok {A} a.
Arguments Raise {A} e.

(** Exceptions propagate: [x ← r; k] runs [k] when [r] returned. *)
#[global] Instance result_ret : MRet result := λ A a, Ok a.
#[global] Instance result_bind : MBind result := λ A B k r,
  match r with
  | Ok a => k a
  | Raise e => Raise e
  end.

(** [[f(x) for x in xs]] for a fallible [f]: the first failure, in list
    order, is the one that propagates. *)
Fixpoint rmap {A B} (f : A → result B) (xs : list A) : result (list B) :=
  match xs with
  | [] => Ok []
  | x :: xs' => y ← f x; ys ← rmap f xs'; Ok (y :: ys)
  end.

Module PyStr.

(** Python strings are modelled as Rocq strings whose characters are the
    code points below 256. *)

Definition dquote : ascii := ascii_of_nat 34.
Definition squote : ascii := "'"%char.
Definition backslash : ascii := "\"%char.

Fixpoint contains (c : ascii) (s : string) : bool :=
  match s with
  | EmptyString => false
  | String d s' => if decide (c = d) then true else contains c s'
  end.

Definition hex_digit (n : nat) : ascii :=
  nth n ["0"; "1"; "2"; "3"; "4"; "5"; "6"; "7"; "8"; "9";
         "a"; "b"; "c"; "d"; "e"; "f"]%char "0"%char.

(** [str.isprintable] on one code point below 256. *)
Definition isprintable (c : ascii) : bool :=
  let n := nat_of_ascii c in
  ((32 <=? n)%nat && (n <? 127)%nat) || ((161 <=? n)%nat && negb (n =? 173)%nat).

Definition repr_char (quote c : ascii) : string :=
  let n := nat_of_ascii c in
  if decide (c = quote) then String backslash (String c "")
  else if decide (c = backslash) then String backslash (String c "")
  else if (n =? 9)%nat then String backslash "t"
  else if (n =? 10)%nat then String backslash "n"
  else if (n =? 13)%nat then String backslash "r"
  else if isprintable c then String c ""
  else String backslash
         (String "x" (String (hex_digit (n / 16)%nat) (String (hex_digit (n mod 16)%nat) ""))).

Fixpoint repr_body (quote : ascii) (s : string) : string :=
  match s with
  | EmptyString => ""
  | String c s' => repr_char quote c +:+ repr_body quote s'
  end.

(** [repr(s)]: single quotes, unless [s] holds a single quote and no
    double quote. *)
Definition repr (s : string) : string :=
  let quote := if contains squote s && negb (contains dquote s)
               then dquote else squote in
  String quote (repr_body quote s +:+ String quote "").

(** The characters [str.split()] splits at. *)
Definition isspace (c : ascii) : bool :=
  bool_decide (nat_of_ascii c ∈ [9; 10; 11; 12; 13; 28; 29; 30; 31; 32; 133; 160]%nat).

Fixpoint lstrip (s : string) : string :=
  match s with
  | EmptyString => ""
  | String c s' => if isspace c then lstrip s' else s
  end.

Fixpoint take_word (s : string) : string :=
  match s with
  | EmptyString => ""
  | String c s' => if isspace c then "" else String c (take_word s')
  end.

(** [s.split()[0]] *)
Definition split_first (s : string) : result string :=
  match lstrip s with
  | EmptyString => Raise IndexError
  | t => Ok (take_word t)
  end.

(** [l.index(x)], with the message of the [ValueError] of CPython 3. *)
Fixpoint find_index (x : string) (l : list string) : option nat :=
  match l with
  | [] => None
  | y :: l' => if decide (x = y) then Some 0 else S <$> find_index x l'
  end.

Definition index (l : list string) (x : string) : result nat :=
  match find_index x l with
  | Some i => Ok i
  | None => Raise (ValueError (repr x +:+ " is not in list"))
  end.

(** [sorted(xs, key=key)]: the keys are computed first, in the order of
    [xs]; the sort is a stable insertion sort on them. *)
Fixpoint insert_by_key {A} (p : nat * A) (l : list (nat * A)) : list (nat * A) :=
  match l with
  | [] => [p]
  | q :: l' => if (p.1 <=? q.1)%nat then p :: q :: l' else q :: insert_by_key p l'
  end.

Definition sort_by_key {A} (l : list (nat * A)) : list (nat * A) :=
  foldr insert_by_key [] l.

Definition sorted {A} (key : A → result nat) (xs : list A) : result (list A) :=
  keyed ← rmap (λ x, k ← key x; Ok (k, x)) xs;
  Ok (snd <$> sort_by_key keyed).

(** The order [sort_by_key] sorts by. *)
Definition key_le {A} (p q : nat * A) : Prop := p.1 ≤ q.1.

End PyStr.

(** ** The multi-layer encoder *)

Section Encoder.

(** [T] is the type of images and activations ([torch.Tensor]); a child
    module is a function on it. *)
Context {T : Type}.

(** An [nn.Sequential] built from an [OrderedDict]: its named children in
    order, each child a module object of its own (as in
    [VGGMultiLayerEncoder]), so that [named_children] yields every entry.
    The keys of an [OrderedDict] are distinct, which the theorems below
    assume as [NoDup (children_names self)]. *)
Definition MultiLayerEncoder := list (string * (T → T)).

Definition named_children (self : MultiLayerEncoder) : list (string * (T → T)) :=
  self.

Definition children_names (self : MultiLayerEncoder) : list string :=
  fst <$> named_children self.

(** The requested layers are collected in a [set], whose iteration order
    [elements] stands for; [sorted] computes the key of each of them, and
    the [ValueError] of the first one that [index] does not find is the one
    the [except] clause turns into the error of the encoder; the
    [IndexError] of [[-1]] on an empty list is not caught. *)
Definition _find_deepest_layer (self : MultiLayerEncoder)
    (layer_cfgs : list (list string)) : result string :=
  let req_layers : gset string := list_to_set (concat layer_cfgs) in
  let children_names := children_names self in
  match
    sorted ← PyStr.sorted (PyStr.index children_names) (elements req_layers);
    match last sorted with
    | Some layer => Ok layer
    | None => Raise IndexError
    end
  with
  | Raise (ValueError error) =>
      layer ← PyStr.split_first error;
      Raise (ValueError ("Layer " +:+ layer +:+ " is not part of the multi-layer encoder."))
  | r => r
  end.

(** The loop of [forward].  Besides the storage it returns the names of
    the children whose module was run, in order. *)
Fixpoint forward_loop (children : list (string * (T → T))) (deepest_layer : string)
    (image : T) (storage : gmap string T) (ran : list string)
    : gmap string T * list string :=
  match children with
  | [] => (storage, ran)
  | (layer, module) :: rest =>
      let image := module image in
      let storage := <[layer := image]> storage in
      if decide (layer = deepest_layer) then (storage, ran ++ [layer])
      else forward_loop rest deepest_layer image storage (ran ++ [layer])
  end.

Definition storage_get (storage : gmap string T) (layer : string) : result T :=
  match storage !! layer with
  | Some enc => Ok enc
  | None => Raise (KeyError layer)
  end.

(** [forward] together with the list of children it ran. *)
Definition forward_traced (self : MultiLayerEncoder) (image : T)
    (layer_cfgs : list (list string)) : list string * result (list (list T)) :=
  match _find_deepest_layer self layer_cfgs with
  | Raise e => ([], Raise e)
  | Ok deepest_layer =>
      let '(storage, ran) :=
        forward_loop (named_children self) deepest_layer image ∅ [] in
      (ran, rmap (rmap (storage_get storage)) layer_cfgs)
  end.

Definition forward (self : MultiLayerEncoder) (image : T)
    (layer_cfgs : list (list string)) : result (list (list T)) :=
  (forward_traced self image layer_cfgs).2.

(** [del self[i + 1:]] on an [nn.Sequential] removes the children at the
    positions of the slice and leaves the others under their names; [trim]
    returns the encoder it leaves. *)
Definition trim (self : MultiLayerEncoder) (layer_cfgs : list (list string))
    : result MultiLayerEncoder :=
  deepest_layer ← _find_deepest_layer self layer_cfgs;
  i ← PyStr.index (children_names self) deepest_layer;
  Ok (take (i + 1) self).

(** The activation of the child at position [i]: the image sent through
    the children [0 .. i]. *)
Definition encode_upto (self : MultiLayerEncoder) (image : T) (i : nat) : T :=
  foldl (λ x child, child.2 x) image (take (S i) self).

Definition activation (self : MultiLayerEncoder) (image : T) (layer : string) : T :=
  match PyStr.find_index layer (children_names self) with
  | Some i => encode_upto self image i
  | None => image
  end.

End Encoder.

Arguments MultiLayerEncoder T : clear implicits.

(** The message [_find_deepest_layer] builds for the layer [l]. *)
Definition missing_msg (l : string) : string :=
  "Layer " +:+ PyStr.take_word (PyStr.repr l +:+ " is not in list")
  +:+ " is not part of the multi-layer encoder.".

(** ** Scalars and tensors *)

(** The arithmetic of tensor entries and scores.  The development is
    generic in it; [Qc_scalar] below instantiates it with exact rationals. *)
Class Scalar (R : Type) := {
  szero : R;
  sadd : R → R → R;
  ssub : R → R → R;
  smul : R → R → R;
  sdiv : R → R → R;
  sof_nat : nat → R;
}.

(** The laws of exact arithmetic the proofs use. *)
Class ScalarLaws (R : Type) `{Scalar R} : Prop := {
  smul_comm : ∀ a b : R, smul a b = smul b a;
  ssub_diag : ∀ a : R, ssub a a = szero;
  smul_zero_l : ∀ a : R, smul szero a = szero;
  sadd_zero_l : ∀ a : R, sadd szero a = a;
  sdiv_zero_l : ∀ n : nat, sdiv szero (sof_nat (S n)) = szero;
}.

#[global] Instance Qc_scalar : Scalar Qc := {|
  szero := Q2Qc 0;
  sadd := Qcplus;
  ssub := Qcminus;
  smul := Qcmult;
  sdiv := Qcdiv;
  sof_nat := λ n, Q2Qc (inject_Z (Z.of_nat n));
|}.

Section Tensors.

Context {R : Type} `{Scalar R}.

(** [sum(xs)] of Python: [0 + x1 + x2 + ...]. *)
Definition py_sum (xs : list R) : R := foldl sadd szero xs.

(** A tensor: its [size()] and its entry at each multi-index. *)
Record Tensor : Type := mkTensor {
  size : list nat;
  item : list nat → R;
}.

Definition numel_of (shape : list nat) : nat := foldr Nat.mul 1 shape.
Definition numel (x : Tensor) : nat := numel_of (size x).

(** The multi-indices of a shape, in row-major order. *)
Fixpoint indices (shape : list nat) : list (list nat) :=
  match shape with
  | [] => [[]]
  | d :: shape' => i ← seq 0 d; (i ::.) <$> indices shape'
  end.

(** The multi-index, in [shape], of the row-major position [k]. *)
Fixpoint unravel (shape : list nat) (k : nat) : list nat :=
  match shape with
  | [] => []
  | _ :: shape' => (k / numel_of shape') :: unravel shape' (k mod numel_of shape')
  end.

(** Broadcasting of [torch.broadcast_tensors]: sizes are aligned at their
    last dimension; two dimensions agree when equal or when one is 1. *)
Definition broadcast_dim (d1 d2 : nat) : option nat :=
  if decide (d1 = d2) then Some d1
  else if decide (d1 = 1) then Some d2
  else if decide (d2 = 1) then Some d1
  else None.

Fixpoint broadcast_rev (r1 r2 : list nat) : option (list nat) :=
  match r1, r2 with
  | [], r => Some r
  | r, [] => Some r
  | d1 :: r1', d2 :: r2' =>
      d ← broadcast_dim d1 d2; r ← broadcast_rev r1' r2'; Some (d :: r)
  end.

Definition broadcast_shapes (s1 s2 : list nat) : option (list nat) :=
  reverse <$> broadcast_rev (reverse s1) (reverse s2).

Definition expand (x : Tensor) (shape : list nat) : Tensor :=
  {| size := shape;
     item := λ ix,
       item x (zip_with (λ d i, if decide (d = 1) then 0 else i)
                        (size x) (drop (length ix - length (size x)) ix)) |}.

(** [torch.nn.functional.mse_loss(input, target)] with the default
    reduction: the mean of the squared differences of the broadcast
    operands. *)
Definition mse_loss (input target : Tensor) : result R :=
  match broadcast_shapes (size input) (size target) with
  | None => Raise TorchError
  | Some shape =>
      let a := expand input shape in
      let b := expand target shape in
      let sq := λ ix, smul (ssub (item a ix) (item b ix)) (ssub (item a ix) (item b ix)) in
      Ok (sdiv (py_sum (sq <$> indices shape)) (sof_nat (numel_of shape)))
  end.

(** [torch.flatten(x, start_dim)]: the dimensions from [start_dim] on
    become one. *)
Definition flatten (x : Tensor) (start_dim : nat) : result Tensor :=
  if decide (start_dim < length (size x)) then
    let tail := drop start_dim (size x) in
    Ok {| size := take start_dim (size x) ++ [numel_of tail];
          item := λ ix, item x (take start_dim ix ++ unravel tail (ix !!! start_dim)) |}
  else Raise TorchError.

Definition swap {A} (l : list A) (i j : nat) : list A :=
  match l !! i, l !! j with
  | Some a, Some b => <[i := b]> (<[j := a]> l)
  | _, _ => l
  end.

(** [x.transpose(dim0, dim1)] *)
Definition transpose (x : Tensor) (dim0 dim1 : nat) : result Tensor :=
  if decide (dim0 < length (size x) ∧ dim1 < length (size x)) then
    Ok {| size := swap (size x) dim0 dim1;
          item := λ ix, item x (swap ix dim0 dim1) |}
  else Raise TorchError.

(** [torch.bmm(a, b)]: one matrix product per batch entry. *)
Definition bmm (a b : Tensor) : result Tensor :=
  match size a, size b with
  | [B; n; m], [B'; m'; p] =>
      if decide (B = B' ∧ m = m') then
        Ok {| size := [B; n; p];
              item := λ ix,
                match ix with
                | [bi; i; j] =>
                    py_sum ((λ k, smul (item a [bi; i; k]) (item b [bi; k; j])) <$> seq 0 m)
                | _ => szero
                end |}
      else Raise TorchError
  | _, _ => Raise TorchError
  end.

(** [x / n] for a Python integer [n] *)
Definition div_int (x : Tensor) (n : nat) : Tensor :=
  {| size := size x; item := λ ix, sdiv (item x ix) (sof_nat n) |}.

Definition feature_reconstruction_loss (input target : Tensor) : result R :=
  mse_loss input target.

Definition channelwise_gram_matrix (x : Tensor) (normalize : bool) : result Tensor :=
  x ← flatten x 2;
  xT ← transpose x 1 2;
  G ← bmm x xT;
  if normalize then Ok (div_int G (List.last (size x) 0))
  else Ok G.

Definition gram_loss (input target : Tensor) : result R :=
  Gi ← channelwise_gram_matrix input true;
  Gt ← channelwise_gram_matrix target true;
  mse_loss Gi Gt.

End Tensors.

Arguments Tensor R : clear implicits.
Arguments mkTensor {R} size item.

(** ** The multi-layer losses *)

Section Loss.

Context {R : Type} `{Scalar R}.

(** [mean(sized)]: [sum(sized) / len(sized)]; the division is by a Python
    integer and raises when it is zero. *)
Definition mean (sized : list R) : result R :=
  if decide (length sized = 0) then Raise ZeroDivisionError
  else Ok (sdiv (py_sum sized) (sof_nat (length sized))).

(** The three classes of the notebook: [MultiLayerLoss] itself and its
    subclasses [ContentLoss] and [StyleLoss]. *)
Inductive LossClass : Type :=
  | BaseLoss
  | ContentLoss
  | StyleLoss.

(** The attributes of a [MultiLayerLoss] object; [_buffers] holds what
    [register_buffer] stored. *)
Record MultiLayerLoss : Type := mkLoss {
  loss_class : LossClass;
  score_weight : R;
  _numel_target_encs : nat;
  _buffers : gmap string (Tensor R);
}.

Definition MultiLayerLoss_init (cls : LossClass) (score_weight : R) : MultiLayerLoss :=
  {| loss_class := cls; score_weight := score_weight;
     _numel_target_encs := 0; _buffers := ∅ |}.

(** Methods run on the object and either return or raise; both leave an
    object behind. *)
Definition Method (A : Type) : Type := MultiLayerLoss → result A * MultiLayerLoss.

Definition ret {A} (a : A) : Method A := λ self, (Ok a, self).
Definition raise {A} (e : exn) : Method A := λ self, (Raise e, self).
Definition bind {A B} (m : Method A) (k : A → Method B) : Method B :=
  λ self,
    match m self with
    | (Ok a, self') => k a self'
    | (Raise e, self') => (Raise e, self')
    end.
Definition getattr {A} (field : MultiLayerLoss → A) : Method A :=
  λ self, (Ok (field self), self).
Definition lift {A} (r : result A) : Method A := λ self, (r, self).

Notation "x ←ₘ m ; k" := (bind m (λ x, k))
  (at level 20, m at level 100, k at level 200, right associativity,
   format "x  ←ₘ  m ;  '/' k").

Fixpoint for_each {A B} (f : A → Method B) (xs : list A) : Method (list B) :=
  match xs with
  | [] => ret []
  | x :: xs' => y ←ₘ f x; ys ←ₘ for_each f xs'; ret (y :: ys)
  end.

Definition _target_enc_name (idx : nat) : string :=
  "_target_encs_" +:+ pretty idx.

(** [self.register_buffer(name, tensor)] *)
Definition register_buffer (name : string) (tensor : Tensor R) : Method unit :=
  λ self,
    (Ok (), {| loss_class := loss_class self; score_weight := score_weight self;
               _numel_target_encs := _numel_target_encs self;
               _buffers := <[name := tensor]> (_buffers self) |}).

(** [getattr(self, name)] for the name of a buffer *)
Definition get_buffer (name : string) : Method (Tensor R) :=
  λ self,
    match _buffers self !! name with
    | Some tensor => (Ok tensor, self)
    | None => (Raise (AttributeError name), self)
    end.

Definition set_numel_target_encs (n : nat) : Method unit :=
  λ self,
    (Ok (), {| loss_class := loss_class self; score_weight := score_weight self;
               _numel_target_encs := n; _buffers := _buffers self |}).

(** [enc.detach()] cuts the autograd graph and keeps the values. *)
Definition detach (enc : Tensor R) : Tensor R := enc.

Definition set_target_encs (target_encs : list (Tensor R)) : Method unit :=
  _ ←ₘ set_numel_target_encs (length target_encs);
  _ ←ₘ for_each (λ '(idx, enc), register_buffer (_target_enc_name idx) (detach enc))
                (imap (λ idx enc, (idx, enc)) target_encs);
  ret ().

Definition target_encs : Method (list (Tensor R)) :=
  n ←ₘ getattr _numel_target_encs;
  for_each (λ idx, get_buffer (_target_enc_name idx)) (seq 0 n).

Definition calculate_score (cls : LossClass) (input target : Tensor R) : result R :=
  match cls with
  | BaseLoss => Raise NotImplementedError
  | ContentLoss => feature_reconstruction_loss input target
  | StyleLoss => gram_loss input target
  end.

Definition mismatch_msg (given stored : nat) : string :=
  "The number of given input encodings and stored target encodings "
  +:+ "does not match: " +:+ pretty given +:+ " != " +:+ pretty stored.

Definition loss_forward (input_encs : list (Tensor R)) : Method R :=
  n ←ₘ getattr _numel_target_encs;
  if decide (length input_encs ≠ n) then
    raise (RuntimeError (mismatch_msg (length input_encs) n))
  else
    targets ←ₘ target_encs;
    cls ←ₘ getattr loss_class;
    layer_losses ←ₘ lift (rmap (λ '(input, target), calculate_score cls input target)
                               (zip input_encs targets));
    m ←ₘ lift (mean layer_losses);
    w ←ₘ getattr score_weight;
    ret (smul m w).

(** A method that only reads leaves the object as it was. *)
Definition readonly {A} (m : Method A) : Prop := ∀ self, (m self).2 = self.

(** The buffers after the targets [entries] are registered, each under
    the name of its index. *)
Definition store (buffers : gmap string (Tensor R)) (entries : list (nat * Tensor R))
    : gmap string (Tensor R) :=
  foldl (λ m '(idx, enc), <[_target_enc_name idx := enc]> m) buffers entries.

(** ** The optimisation criterion *)

(** The [closure] of the optimisation loop, as a function of the objects
    it reads.  Gradients ([zero_grad], [backward]) and printing are not
    modelled; it returns [perceptual_loss]. *)
Definition closure (multi_layer_encoder : MultiLayerEncoder (Tensor R))
    (content_loss style_loss : MultiLayerLoss)
    (content_layers style_layers : list string) (input_image : Tensor R) : result R :=
  input_encs ← forward multi_layer_encoder input_image [content_layers; style_layers];
  match input_encs with
  | [input_content_encs; input_style_encs] =>
      content_score ← (loss_forward input_content_encs content_loss).1;
      style_score ← (loss_forward input_style_encs style_loss).1;
      Ok (sadd content_score style_score)
  | [] | [_] =>
      Raise (ValueError ("not enough values to unpack (expected 2, got "
                         +:+ pretty (length input_encs) +:+ ")"))
  | _ => Raise (ValueError "too many values to unpack (expected 2)")
  end.

(** The set-up of the notebook before the loop: the encoder is trimmed,
    the targets are encoded and stored in freshly made losses. *)
Definition nst_setup (multi_layer_encoder : MultiLayerEncoder (Tensor R))
    (content_layers style_layers : list string)
    (content_image style_image : Tensor R) (content_weight style_weight : R)
    : result (MultiLayerEncoder (Tensor R) * MultiLayerLoss * MultiLayerLoss) :=
  multi_layer_encoder ← trim multi_layer_encoder [content_layers; style_layers];
  content_encs ← forward multi_layer_encoder content_image [content_layers];
  target_content_encs ← (match content_encs with e :: _ => Ok e | [] => Raise IndexError end);
  style_encs ← forward multi_layer_encoder style_image [style_layers];
  target_style_encs ← (match style_encs with e :: _ => Ok e | [] => Raise IndexError end);
  let content_loss :=
    (set_target_encs target_content_encs (MultiLayerLoss_init ContentLoss content_weight)).2 in
  let style_loss :=
    (set_target_encs target_style_encs (MultiLayerLoss_init StyleLoss style_weight)).2 in
  Ok (multi_layer_encoder, content_loss, style_loss).

End Loss.

Arguments MultiLayerLoss R : clear implicits.

(** ** The image pyramid *)

Module Pyramid.

(** The edge-selection policy of a level. *)
Inductive Edge : Type :=
  | Short
  | Long.

(** Modelled from the spec: [pystiche.pyramid.PyramidLevel], which the
    notebooks only use.  A level is the record of an edge size, a step
    count and an edge-selection policy. *)
Record PyramidLevel : Type := mkLevel {
  edge_size : nat;
  num_steps : nat;
  edge : Edge;
}.

(** A setting given once for all levels or once per level. *)
Inductive Setting (A : Type) : Type :=
  | Global (a : A)
  | PerLevel (l : list A).
Arguments Global {A} a.
Arguments PerLevel {A} l.

Definition per_level {A} (n : nat) (s : Setting A) : option (list A) :=
  match s with
  | Global a => Some (replicate n a)
  | PerLevel l => if decide (length l = n) then Some l else None
  end.

(** Modelled from the spec: the constructor of
    [pystiche.pyramid.ImagePyramid], which the notebooks only call.  It
    builds the sequence of levels from the edge sizes, in the order they
    are given; a per-level setting has to be as long as the edge sizes.
    The sequence is immutable once constructed. *)
Definition ImagePyramid (edge_sizes : list nat) (num_steps : Setting nat)
    (edge : Setting Edge) : option (list PyramidLevel) :=
  steps ← per_level (length edge_sizes) num_steps;
  edges ← per_level (length edge_sizes) edge;
  Some (zip_with (λ '(size, steps) edge, mkLevel size steps edge)
                 (zip edge_sizes steps) edges).

(** What the scheduler does, in order: it enters level [i], resizing to
    its edge size, or delegates one optimisation step at level [i]. *)
Inductive Event : Type :=
  | EnterLevel (i : nat) (edge_size : nat)
  | OptimStep (i : nat) (edge_size : nat).

Section Scheduler.

(** The working image, the resize-dependent collaborators (the
    criterion and its guides), and the collaborators of the scheduler:
    resizing and one iteration of the optimisation driver. *)
Context {Image Targets : Type}.
Context (resize_image : PyramidLevel → Image → Image).
Context (resize_targets : PyramidLevel → Targets → Targets).
Context (optim_step : Targets → Image → Image).

(** Modelled from the spec: the scheduler from [running(level i)] on.
    On entering a level it resizes the working image and the
    collaborators, then delegates exactly [num_steps] iterations to
    the driver before advancing; after the last level it is [done] and
    returns the final image. *)
Fixpoint run_levels (i : nat) (levels : list PyramidLevel)
    (targets : Targets) (image : Image) : list Event * Image :=
  match levels with
  | [] => ([], image)
  | level :: rest =>
      let targets := resize_targets level targets in
      let image := resize_image level image in
      let image := Nat.iter (num_steps level) (optim_step targets) image in
      let '(events, output) := run_levels (S i) rest targets image in
      (EnterLevel i (edge_size level)
         :: replicate (num_steps level) (OptimStep i (edge_size level)) ++ events,
       output)
  end.

(** Modelled from the spec: [pystiche.optim.pyramid_image_optimization],
    which the notebooks only call: the run from [idle] to [done]. *)
Definition pyramid_image_optimization (input_image : Image) (criterion : Targets)
    (pyramid : list PyramidLevel) : list Event * Image :=
  run_levels 0 pyramid criterion input_image.

End Scheduler.

(** The events of a run over [levels], the first of which has index [i]:
    level by level, one entry and then the steps of the level. *)
Fixpoint schedule (i : nat) (levels : list PyramidLevel) : list Event :=
  match levels with
  | [] => []
  | level :: rest =>
      EnterLevel i (edge_size level)
        :: replicate (num_steps level) (OptimStep i (edge_size level))
        ++ schedule (S i) rest
  end.

(** The edge sizes of the levels entered, in the order they are entered. *)
Definition entered (events : list Event) : list nat :=
  omap (λ e, match e with EnterLevel _ size => Some size | OptimStep _ _ => None end)
       events.

(** The number of optimisation steps delegated at level [i]. *)
Definition steps_at (i : nat) (events : list Event) : nat :=
  length (List.filter (λ e, match e with
                            | OptimStep j _ => bool_decide (j = i)
                            | EnterLevel _ _ => false
                            end) events).

Definition total_steps (events : list Event) : nat :=
  length (List.filter (λ e, match e with
                            | OptimStep _ _ => true
                            | EnterLevel _ _ => false
                            end) events).

End Pyramid.

(** ** Vocabulary of the statements and sample values *)

(** The call returned. *)
Definition is_Ok {A} (r : result A) : Prop := ∃ a, r = Ok a.

Section SpecWords.

Context {R : Type} `{Scalar R}.

(** The aggregation in the words of the specification: children's scores
    weighted by per-child weights, as a weighted mean or, if so
    configured, a weighted sum, scaled by the score weight of the
    composite. *)
Definition weighted_sum (weights scores : list R) : R :=
  py_sum (zip_with smul weights scores).

Definition weighted_mean (weights scores : list R) : R :=
  sdiv (weighted_sum weights scores) (py_sum weights).

Definition composite_score (sum_mode : bool) (weights scores : list R) (score_weight : R) : R :=
  smul (if sum_mode then weighted_sum weights scores else weighted_mean weights scores)
       score_weight.

End SpecWords.

(** An encoder of three layers on numbers. *)
Definition demo_encoder : MultiLayerEncoder nat :=
  [("conv1_1", S); ("relu1_1", λ x, 2 * x); ("conv1_2", λ x, x + 10)].

(** A tensor of size [1, 2, 2, 2] over the rationals. *)
Definition demo_tensor : Tensor Qc :=
  mkTensor [1; 2; 2; 2]
           (λ ix, Q2Qc (inject_Z (Z.of_nat (foldl (λ a i, 3 * a + i + 1) 1 ix)))).

(** A tensor of one entry, and a small content loss over exact rationals:
    two stored targets, both zero, and score weight 3. *)
Definition scalar_tensor (q : Qc) : Tensor Qc := mkTensor [1; 1; 1; 1] (λ _, q).

Definition demo_targets : list (Tensor Qc) :=
  [scalar_tensor (Q2Qc 0); scalar_tensor (Q2Qc 0)].

Definition demo_inputs : list (Tensor Qc) :=
  [scalar_tensor (Q2Qc 1); scalar_tensor (Q2Qc 2)].

Definition demo_loss : MultiLayerLoss Qc :=
  (set_target_encs demo_targets (MultiLayerLoss_init ContentLoss (Q2Qc 3))).2.

(** An encoder on tensors over the rationals, targets taken from one image
    and a candidate image. *)
Definition demo_tensor_encoder : MultiLayerEncoder (Tensor Qc) :=
  [("conv1_1", λ x, div_int x 2); ("relu1_1", λ x, x); ("conv1_2", λ x, div_int x 3)].

Definition demo_content_layers : list string := ["relu1_1"].
Definition demo_style_layers : list string := ["conv1_1"; "relu1_1"].

Definition demo_candidate : Tensor Qc :=
  mkTensor [1; 2; 2; 2] (λ ix, Q2Qc (inject_Z (Z.of_nat (foldl (λ a i, 2 * a + i) 1 ix)))).

Definition demo_content_loss : MultiLayerLoss Qc :=
  (set_target_encs (activation demo_tensor_encoder demo_tensor <$> demo_content_layers)
                   (MultiLayerLoss_init ContentLoss (Q2Qc 1))).2.

Definition demo_style_loss : MultiLayerLoss Qc :=
  (set_target_encs (activation demo_tensor_encoder demo_tensor <$> demo_style_layers)
                   (MultiLayerLoss_init StyleLoss (Q2Qc 1000))).2.

(** ** More of the notebooks *)

(** *** The VGG encoder *)

(** [od[key] = value] on an [OrderedDict]: a new key goes to the end, a
    key that is present keeps its place and gets the new value. *)
Fixpoint od_set {V} (od : list (string * V)) (key : string) (value : V)
    : list (string * V) :=
  match od with
  | [] => [(key, value)]
  | (k, v) :: od' =>
      if decide (k = key) then (k, value) :: od'
      else (k, v) :: od_set od' key value
  end.

(** A child of [vgg_net.features], by the first [isinstance] test of
    [VGGMultiLayerEncoder.__init__] it passes; a module of another type
    carries the text of [type(module)]. *)
Inductive VGGModule (T : Type) : Type :=
  | Conv2d (f : T → T)
  | BatchNorm2d (f : T → T)
  | ReLU (inplace : bool)
  | MaxPool2d (f : T → T)
  | OtherModule (type_repr : string).
Arguments Conv2d {T} f.
Arguments BatchNorm2d {T} f.
Arguments ReLU {T} inplace.
Arguments MaxPool2d {T} f.
Arguments OtherModule {T} type_repr.

Definition block_depth_name (kind : string) (block depth : nat) : string :=
  kind +:+ pretty block +:+ "_" +:+ pretty depth.

Definition pool_name (block : nat) : string := "pool" +:+ pretty block.

Section VGG.

Context {T : Type}.

(** What [nn.ReLU(inplace=False)] and [TorchNormalize()] compute. *)
Context (relu : T → T) (torch_normalize : T → T).

(** The loop of [VGGMultiLayerEncoder.__init__] from the counters [block]
    and [depth] and the dictionary [modules] on. *)
Fixpoint vgg_loop (features : list (VGGModule T)) (block depth : nat)
    (modules : list (string * (T → T))) : result (list (string * (T → T))) :=
  match features with
  | [] => Ok modules
  | Conv2d f :: rest =>
      vgg_loop rest block depth (od_set modules (block_depth_name "conv" block depth) f)
  | BatchNorm2d f :: rest =>
      vgg_loop rest block depth (od_set modules (block_depth_name "bn" block depth) f)
  | ReLU _ :: rest =>
      vgg_loop rest block (depth + 1)
               (od_set modules (block_depth_name "relu" block depth) relu)
  | MaxPool2d f :: rest =>
      vgg_loop rest (block + 1) 1 (od_set modules (pool_name block) f)
  | OtherModule type_repr :: _ =>
      Raise (RuntimeError ("Type " +:+ type_repr +:+ " is not part of the VGG architecture."))
  end.

Definition VGGMultiLayerEncoder_init (features : list (VGGModule T))
    : result (MultiLayerEncoder T) :=
  vgg_loop features 1 1 [("preprocessing", torch_normalize)].

(** The feature stage of [torchvision]'s VGG19 (configuration E, no batch
    normalisation): blocks of 2, 2, 4, 4 and 4 convolutions, each followed
    by an in-place ReLU, each block closed by a max pooling.  The modules
    compute [conv block depth] and [pool block]. *)
Definition vgg_block (conv : nat → nat → T → T) (pool : nat → T → T)
    (block convs : nat) : list (VGGModule T) :=
  (d ← seq 1 convs; [Conv2d (conv block d); ReLU true]) ++ [MaxPool2d (pool block)].

Definition vgg19_features (conv : nat → nat → T → T) (pool : nat → T → T)
    : list (VGGModule T) :=
  vgg_block conv pool 1 2 ++ vgg_block conv pool 2 2 ++ vgg_block conv pool 3 4
  ++ vgg_block conv pool 4 4 ++ vgg_block conv pool 5 4.

End VGG.

(** The layers the notebook compares encodings on. *)
Definition content_layers : list string := ["relu4_2"].
Definition style_layers : list string :=
  ["relu1_1"; "relu2_1"; "relu3_1"; "relu4_1"; "relu5_1"].

(** Counting the modules before a position: the pooling layers, and the
    ReLUs since the last pooling layer. *)
Definition is_pool {T} (m : VGGModule T) : bool :=
  match m with MaxPool2d _ => true | _ => false end.

Definition is_relu {T} (m : VGGModule T) : bool :=
  match m with ReLU _ => true | _ => false end.

Definition is_other {T} (m : VGGModule T) : bool :=
  match m with OtherModule _ => true | _ => false end.

Fixpoint until_pool {T} (backwards : list (VGGModule T)) : list (VGGModule T) :=
  match backwards with
  | [] => []
  | m :: rest => if is_pool m then [] else m :: until_pool rest
  end.

Definition pools {T} (pre : list (VGGModule T)) : nat :=
  length (List.filter is_pool pre).

Definition relus_since {T} (pre : list (VGGModule T)) : nat :=
  length (List.filter is_relu (until_pool (reverse pre))).

Definition pools_before {T} (features : list (VGGModule T)) (k : nat) : nat :=
  pools (take k features).

Definition relus_since_pool {T} (features : list (VGGModule T)) (k : nat) : nat :=
  relus_since (take k features).

(** The name [__init__] gives to a module that is the [k]-th of
    [features], in terms of these counts. *)
Definition layer_name {T} (features : list (VGGModule T)) (k : nat) : option string :=
  let block := 1 + pools_before features k in
  let depth := 1 + relus_since_pool features k in
  match features !! k with
  | Some (Conv2d _) => Some (block_depth_name "conv" block depth)
  | Some (BatchNorm2d _) => Some (block_depth_name "bn" block depth)
  | Some (ReLU _) => Some (block_depth_name "relu" block depth)
  | Some (MaxPool2d _) => Some (pool_name block)
  | _ => None
  end.

(** *** Normalisation *)

Section Normalize.

Context {R : Type} `{Scalar R}.

(** [torch.tensor(values)] for a tuple of numbers *)
Definition tensor_of_list (values : list R) : Tensor R :=
  mkTensor [length values]
           (λ ix, match ix with [i] => nth i values szero | _ => szero end).

(** [x.view(1, -1, 1, 1)] for a one-dimensional [x]: the size the [-1]
    stands for cannot be inferred when [x] has no element. *)
Definition view_1_m1_1_1 (x : Tensor R) : result (Tensor R) :=
  match size x with
  | [n] =>
      if decide (n = 0) then Raise TorchError
      else Ok (mkTensor [1; n; 1; 1]
                 (λ ix, match ix with
                        | [a; c; h; w] => item x [((a * n + c) * 1 + h) * 1 + w]
                        | _ => szero
                        end))
  | _ => Raise TorchError
  end.

(** [a - b] and [a / b] on tensors, with broadcasting *)
Definition tensor_binop (op : R → R → R) (a b : Tensor R) : result (Tensor R) :=
  match broadcast_shapes (size a) (size b) with
  | None => Raise TorchError
  | Some shape =>
      Ok (mkTensor shape (λ ix, op (item (expand a shape) ix) (item (expand b shape) ix)))
  end.

Definition tensor_sub : Tensor R → Tensor R → result (Tensor R) := tensor_binop ssub.
Definition tensor_div : Tensor R → Tensor R → result (Tensor R) := tensor_binop sdiv.

(** The buffers of a [Normalize] module *)
Record Normalize : Type := mkNormalize {
  norm_mean : Tensor R;
  norm_std : Tensor R;
}.

Definition Normalize_init (mean std : list R) : result Normalize :=
  mean ← view_1_m1_1_1 (tensor_of_list mean);
  std ← view_1_m1_1_1 (tensor_of_list std);
  Ok (mkNormalize mean std).

Definition Normalize_forward (self : Normalize) (image : Tensor R) : result (Tensor R) :=
  centred ← tensor_sub image (norm_mean self);
  tensor_div centred (norm_std self).

End Normalize.

Arguments Normalize R : clear implicits.

(** [TorchNormalize()]: the mean and the standard deviation of the images
    the pretrained models were trained on, as exact decimals. *)
Definition TorchNormalize_init : result (Normalize Qc) :=
  Normalize_init
    [Q2Qc (485 # 1000); Q2Qc (456 # 1000); Q2Qc (406 # 1000)]
    [Q2Qc (229 # 1000); Q2Qc (224 # 1000); Q2Qc (225 # 1000)].

(** An image of one pixel with three channels. *)
Definition demo_pixel : Tensor Qc :=
  mkTensor [1; 3; 1; 1]
           (λ ix, match ix with
                  | [_; c; _; _] => Q2Qc (inject_Z (Z.of_nat c) / 2)
                  | _ => Q2Qc 0
                  end).

(** * Properties *)

(** ** Results and the Python helpers *)

Lemma rmap_ok {A B} (f : A → result B) (g : A → B) (xs : list A) :
  (∀ x, x ∈ xs → f x = Ok (g x)) → rmap f xs = Ok (g <$> xs).
Proof.
  induction xs as [|x xs IH]; intros Hf; [done|].
  cbn. rewrite Hf by left. cbn.
  rewrite IH; [done|]. intros y Hy. apply Hf. by right.
Qed.

Lemma rmap_ext {A B} (f g : A → result B) (xs : list A) :
  (∀ x, x ∈ xs → f x = g x) → rmap f xs = rmap g xs.
Proof.
  induction xs as [|x xs IH]; intros Hf; [done|].
  cbn. rewrite Hf by left. destruct (g x); cbn; [|done].
  rewrite IH; [done|]. intros y Hy. apply Hf. by right.
Qed.

Lemma rmap_raise {A B} (f : A → result B) (xs : list A) e :
  rmap f xs = Raise e → ∃ x, x ∈ xs ∧ f x = Raise e.
Proof.
  induction xs as [|x xs IH]; [done|].
  cbn. destruct (f x) as [y|e'] eqn:Hx; cbn.
  - destruct (rmap f xs) as [ys|e'']; cbn; [done|].
    intros [= ->]. destruct IH as (z & Hz & Hfz); [done|].
    exists z. split; [by right|done].
  - intros [= ->]. exists x. split; [by left|done].
Qed.

Lemma rmap_inv {A B} (f : A → result B) (xs : list A) ys :
  rmap f xs = Ok ys → Forall2 (λ x y, f x = Ok y) xs ys.
Proof.
  revert ys. induction xs as [|x xs IH]; intros ys.
  - intros [= <-]. constructor.
  - cbn. destruct (f x) as [y|] eqn:Hx; cbn; [|done].
    destruct (rmap f xs) as [ys'|]; cbn; [|done].
    intros [= <-]. constructor; [done|]. by apply IH.
Qed.

(** Some element fails: [rmap] raises what the first failing one raises. *)
Lemma rmap_fails {A B} (f : A → result B) (xs : list A) :
  (∃ x, x ∈ xs ∧ ∃ e, f x = Raise e) →
  ∃ x e, x ∈ xs ∧ f x = Raise e ∧ rmap f xs = Raise e.
Proof.
  induction xs as [|x xs IH]; intros (z & Hz & e & Hfz).
  - by apply elem_of_nil in Hz.
  - cbn. destruct (f x) as [y|e'] eqn:Hx; cbn.
    + apply elem_of_cons in Hz as [->|Hz]; [congruence|].
      destruct IH as (x' & e' & Hx' & Hfx' & ->); [by eauto|].
      exists x', e'. split; [by right|done].
    + exists x, e'. split; [by left|done].
Qed.

Lemma elem_of_concat {A} (x : A) (ls : list (list A)) :
  x ∈ concat ls ↔ ∃ l, l ∈ ls ∧ x ∈ l.
Proof.
  rewrite list_elem_of_In, in_concat. split.
  - intros (l & Hl & Hx). exists l. by rewrite !list_elem_of_In.
  - intros (l & Hl & Hx). exists l. by rewrite <- !list_elem_of_In.
Qed.

Module PyStrFacts.
Import PyStr.

Lemma find_index_Some x l i :
  find_index x l = Some i → l !! i = Some x.
Proof.
  revert i. induction l as [|y l IH]; intros i; [done|].
  cbn. case_decide as Hxy; [by intros [= <-]; subst|].
  destruct (find_index x l) as [j|]; [|done].
  intros [= <-]. by apply IH.
Qed.

Lemma find_index_None x l : find_index x l = None ↔ x ∉ l.
Proof.
  induction l as [|y l IH]; cbn.
  - split; [intros _; apply not_elem_of_nil|done].
  - rewrite not_elem_of_cons. case_decide as Hxy.
    + split; [done|]. by intros [? _].
    + destruct (find_index x l); cbn.
      * split; [done|]. intros [_ Hn]. by apply IH in Hn.
      * split; [|done]. intros _. split; [done|]. by apply IH.
Qed.

Lemma find_index_elem_of x l : x ∈ l → ∃ i, find_index x l = Some i.
Proof.
  intros Hx. destruct (find_index x l) as [i|] eqn:Hi; [by eauto|].
  by apply find_index_None in Hi.
Qed.

Lemma find_index_NoDup x l i :
  NoDup l → l !! i = Some x → find_index x l = Some i.
Proof.
  intros Hnd Hi.
  destruct (find_index_elem_of x l) as [j Hj]; [by eapply list_elem_of_lookup_2|].
  rewrite Hj. f_equal. apply find_index_Some in Hj.
  by eapply NoDup_lookup.
Qed.

Lemma find_index_lt x l i : find_index x l = Some i → i < length l.
Proof. intros Hi. eapply lookup_lt_Some. by apply find_index_Some. Qed.

Lemma index_Ok l x i : index l x = Ok i ↔ find_index x l = Some i.
Proof.
  unfold index. destruct (find_index x l); split; intros; simplify_eq; done.
Qed.

(** [index] raises exactly for the absent, with CPython's message. *)
Lemma index_absent l x :
  x ∉ l → index l x = Raise (ValueError (repr x +:+ " is not in list")).
Proof. intros Hx. apply find_index_None in Hx. unfold index. by rewrite Hx. Qed.

Lemma index_raise l x e :
  index l x = Raise e → (x ∉ l) ∧ e = ValueError (repr x +:+ " is not in list").
Proof.
  unfold index. destruct (find_index x l) eqn:Hi; [done|].
  intros [= <-]. split; [|done]. by apply find_index_None.
Qed.

(** *** Sorting by key *)

Lemma insert_by_key_perm {A} (p : nat * A) l : insert_by_key p l ≡ₚ p :: l.
Proof.
  induction l as [|q l IH]; [done|].
  cbn. destruct (p.1 <=? q.1)%nat; [done|].
  rewrite IH. apply Permutation_swap.
Qed.

Lemma sort_by_key_perm {A} (l : list (nat * A)) : sort_by_key l ≡ₚ l.
Proof.
  induction l as [|p l IH]; [done|].
  cbn. rewrite insert_by_key_perm. by rewrite IH.
Qed.

Lemma insert_by_key_sorted {A} (p : nat * A) l :
  StronglySorted key_le l → StronglySorted key_le (insert_by_key p l).
Proof.
  induction 1 as [|q l Hl IH Hq]; cbn.
  - repeat constructor.
  - destruct (Nat.leb_spec p.1 q.1) as [Hle|Hgt].
    + constructor; [by constructor|].
      constructor; [done|].
      eapply Forall_impl; [exact Hq|]. unfold key_le. intros; lia.
    + constructor; [done|].
      rewrite insert_by_key_perm. constructor; [|done].
      unfold key_le. lia.
Qed.

Lemma sort_by_key_sorted {A} (l : list (nat * A)) :
  StronglySorted key_le (sort_by_key l).
Proof.
  induction l as [|p l IH]; cbn; [constructor|].
  by apply insert_by_key_sorted.
Qed.

(** The last element of a sorted list has the greatest key. *)
Lemma sorted_last_max {A} (l : list (nat * A)) p :
  StronglySorted key_le l → last l = Some p → ∀ q, q ∈ l → q.1 ≤ p.1.
Proof.
  induction 1 as [|r l Hl IH Hr]; [done|].
  destruct l as [|r' l'].
  - intros [= <-] q Hq. apply list_elem_of_singleton in Hq as ->. done.
  - intros Hlast q Hq. change (last (r' :: l') = Some p) in Hlast.
    apply elem_of_cons in Hq as [->|Hq]; [|by apply IH].
    rewrite Forall_forall in Hr.
    assert (p ∈ r' :: l') as Hp.
    { apply last_Some in Hlast as [l'' ->]. set_solver. }
    by apply Hr.
Qed.

(** [sorted] when every key is defined. *)
Lemma sorted_ok {A} (key : A → result nat) (k : A → nat) xs :
  (∀ x, x ∈ xs → key x = Ok (k x)) →
  sorted key xs = Ok (snd <$> sort_by_key ((λ x, (k x, x)) <$> xs)).
Proof.
  intros Hk. unfold sorted.
  rewrite (rmap_ok _ (λ x, (k x, x))); [done|].
  intros x Hx. by rewrite Hk.
Qed.

(** [sorted] when some key raises: it raises what one of the keys raised. *)
Lemma sorted_fails {A} (key : A → result nat) xs :
  (∃ x, x ∈ xs ∧ ∃ e, key x = Raise e) →
  ∃ x e, x ∈ xs ∧ key x = Raise e ∧ sorted key xs = Raise e.
Proof.
  intros (x & Hx & e & Hkx).
  destruct (rmap_fails (λ x, k ← key x; Ok (k, x)) xs) as (x' & e' & Hx' & Hf & Hr).
  { exists x. split; [done|]. exists e. by rewrite Hkx. }
  exists x', e'. split; [done|].
  destruct (key x') eqn:Hk'; [done|]. injection Hf as ->.
  split; [done|]. unfold sorted. by rewrite Hr.
Qed.

(** *** The token [split_first] finds in the message of [index] *)

Lemma split_first_not_in_list x :
  split_first (repr x +:+ " is not in list")
  = Ok (take_word (repr x +:+ " is not in list")).
Proof.
  unfold split_first, repr.
  set (quote := if contains squote x && negb (contains dquote x) then dquote else squote).
  assert (isspace quote = false) as Hq by (unfold quote; by destruct (_ && _)).
  simpl. rewrite Hq. simpl. by rewrite Hq.
Qed.

End PyStrFacts.

(** ** The multi-layer encoder *)

Section EncoderFacts.

Context {T : Type}.
Implicit Types (self : MultiLayerEncoder T) (image : T).
Implicit Types (layer_cfgs : list (list string)) (layers : list string).

Lemma children_names_take self n :
  children_names (take n self) = take n (children_names self).
Proof. unfold children_names, named_children. by rewrite fmap_take. Qed.

(** The layer names a call asks for. *)
Lemma elem_of_req_layers layer_cfgs l :
  l ∈ elements (list_to_set (concat layer_cfgs) : gset string) ↔ l ∈ concat layer_cfgs.
Proof. by rewrite elem_of_elements, elem_of_list_to_set. Qed.

(** Nothing is requested: [sorted(...)[-1]] raises an [IndexError], which
    the [except ValueError] clause lets through. *)
Lemma _find_deepest_layer_empty self layer_cfgs :
  concat layer_cfgs = [] → _find_deepest_layer self layer_cfgs = Raise IndexError.
Proof.
  intros Hnil. unfold _find_deepest_layer. rewrite Hnil.
  change (list_to_set [] : gset string) with (∅ : gset string).
  by rewrite elements_empty.
Qed.

(** Every requested layer exists: the deepest one is returned. *)
Lemma _find_deepest_layer_ok self layer_cfgs :
  concat layer_cfgs ≠ [] →
  (∀ l, l ∈ concat layer_cfgs → l ∈ children_names self) →
  ∃ deepest i,
    _find_deepest_layer self layer_cfgs = Ok deepest ∧
    deepest ∈ concat layer_cfgs ∧
    PyStr.find_index deepest (children_names self) = Some i ∧
    ∀ l, l ∈ concat layer_cfgs →
      ∃ j, PyStr.find_index l (children_names self) = Some j ∧ j ≤ i.
Proof.
  intros Hne Hall.
  set (names := children_names self) in *.
  set (k := λ l, default 0 (PyStr.find_index l names)).
  set (req := elements (list_to_set (concat layer_cfgs) : gset string)).
  assert (∀ l, l ∈ concat layer_cfgs → PyStr.find_index l names = Some (k l)) as Hk.
  { intros l Hl. destruct (PyStrFacts.find_index_elem_of l names) as [j Hj]; [by auto|].
    unfold k. by rewrite Hj. }
  assert (PyStr.sorted (PyStr.index names) req
          = Ok (snd <$> PyStr.sort_by_key ((λ x, (k x, x)) <$> req))) as Hsorted.
  { apply PyStrFacts.sorted_ok. intros l Hl. apply elem_of_req_layers in Hl.
    apply PyStrFacts.index_Ok. by apply Hk. }
  set (L := PyStr.sort_by_key ((λ x, (k x, x)) <$> req)) in *.
  assert (L ≡ₚ (λ x, (k x, x)) <$> req) as Hperm by apply PyStrFacts.sort_by_key_perm.
  destruct (last L) as [[kd deepest]|] eqn:Hlast.
  2:{ apply last_None in Hlast. rewrite Hlast in Hperm.
      symmetry in Hperm. apply Permutation_nil_r in Hperm.
      apply fmap_nil_inv in Hperm.
      assert (∃ l, l ∈ concat layer_cfgs) as [l Hl].
      { clear -Hne. destruct (concat layer_cfgs) as [|l ?]; [done|]. exists l. by left. }
      apply elem_of_req_layers in Hl. fold req in Hl.
      rewrite Hperm in Hl. by apply elem_of_nil in Hl. }
  assert ((kd, deepest) ∈ L) as Hin.
  { apply last_Some in Hlast as [L' ->]. set_solver. }
  rewrite Hperm in Hin. apply list_elem_of_fmap in Hin as (d & [= -> ->] & Hd).
  apply elem_of_req_layers in Hd.
  exists d, (k d). split; [|split; [done|split; [by apply Hk|]]].
  - unfold _find_deepest_layer. fold names. fold req. rewrite Hsorted. cbn.
    by rewrite fmap_last, Hlast.
  - intros l Hl. exists (k l). split; [by apply Hk|].
    apply (PyStrFacts.sorted_last_max L (k d, d) (PyStrFacts.sort_by_key_sorted _) Hlast (k l, l)).
    rewrite Hperm. apply list_elem_of_fmap. exists l. split; [done|].
    by apply elem_of_req_layers.
Qed.

(** Some requested layer does not exist: a [ValueError] is raised, whose
    message is built from one of the missing layers. *)
Lemma _find_deepest_layer_missing self layer_cfgs :
  (∃ l, l ∈ concat layer_cfgs ∧ l ∉ children_names self) →
  ∃ l, l ∈ concat layer_cfgs ∧ (l ∉ children_names self) ∧
    _find_deepest_layer self layer_cfgs = Raise (ValueError (missing_msg l)).
Proof.
  intros (l & Hl & Hmiss).
  destruct (PyStrFacts.sorted_fails (PyStr.index (children_names self))
              (elements (list_to_set (concat layer_cfgs) : gset string)))
    as (x & e & Hx & Hkx & Hs).
  { exists l. split; [by apply elem_of_req_layers|].
    eexists. by apply PyStrFacts.index_absent. }
  apply PyStrFacts.index_raise in Hkx as [Hxm ->].
  exists x. split; [by apply elem_of_req_layers|]. split; [done|].
  unfold _find_deepest_layer. rewrite Hs. cbn.
  by rewrite PyStrFacts.split_first_not_in_list.
Qed.

(** *** The loop of [forward] *)

Lemma forward_loop_spec (children : list (string * (T → T))) deepest i image storage ran :
  NoDup children.*1 →
  PyStr.find_index deepest children.*1 = Some i →
  ∃ storage',
    forward_loop children deepest image storage ran
      = (storage', ran ++ take (S i) children.*1) ∧
    (∀ l j, PyStr.find_index l children.*1 = Some j → j ≤ i →
       storage' !! l = Some (foldl (λ x child, child.2 x) image (take (S j) children))) ∧
    (∀ l, l ∉ take (S i) children.*1 → storage' !! l = storage !! l).
Proof.
  revert i image storage ran.
  induction children as [|[layer module] rest IH]; intros i image storage ran Hnd Hi; [done|].
  cbn in Hnd, Hi. apply NoDup_cons in Hnd as [Hfresh Hnd].
  cbn [forward_loop]. destruct (decide (layer = deepest)) as [Hd|Hd].
  - subst deepest. rewrite decide_True in Hi by done. injection Hi as <-.
    eexists. split; [done|]. split.
    + intros l j Hj Hle. assert (j = 0) as -> by lia.
      cbn in Hj. case_decide as Hl; [subst l|].
      * by rewrite lookup_insert_eq.
      * by destruct (PyStr.find_index l rest.*1).
    + intros l Hl. cbn in Hl. apply not_elem_of_cons in Hl as [Hl _].
      by rewrite lookup_insert_ne.
  - rewrite decide_False in Hi by congruence.
    destruct (PyStr.find_index deepest rest.*1) as [i'|] eqn:Hi'; [|done].
    injection Hi as <-.
    destruct (IH i' (module image) (<[layer:=module image]> storage) (ran ++ [layer]) Hnd eq_refl)
      as (storage' & Hloop & Hin & Hout).
    exists storage'. split; [|split].
    + rewrite Hloop. f_equal. by rewrite <- app_assoc.
    + intros l j Hj Hle. cbn in Hj. case_decide as Hl.
      * subst l. injection Hj as <-. rewrite Hout.
        -- by rewrite lookup_insert_eq.
        -- intros Hin'. apply Hfresh. by eapply subseteq_take.
      * destruct (PyStr.find_index l rest.*1) as [j'|] eqn:Hj'; [|done].
        injection Hj as <-. rewrite (Hin l j' Hj') by lia. done.
    + intros l Hl. cbn in Hl. apply not_elem_of_cons in Hl as [Hl1 Hl2].
      rewrite Hout by done. by rewrite lookup_insert_ne.
Qed.

Lemma activation_find_index self image l j :
  PyStr.find_index l (children_names self) = Some j →
  activation self image l = foldl (λ x child, child.2 x) image (take (S j) self).
Proof. intros Hj. unfold activation. by rewrite Hj. Qed.

(** What [forward] does when every requested layer exists. *)
Lemma forward_traced_ok self image layer_cfgs :
  NoDup (children_names self) →
  concat layer_cfgs ≠ [] →
  (∀ l, l ∈ concat layer_cfgs → l ∈ children_names self) →
  ∃ deepest i,
    _find_deepest_layer self layer_cfgs = Ok deepest ∧
    deepest ∈ concat layer_cfgs ∧
    PyStr.find_index deepest (children_names self) = Some i ∧
    (∀ l, l ∈ concat layer_cfgs →
       ∃ j, PyStr.find_index l (children_names self) = Some j ∧ j ≤ i) ∧
    forward_traced self image layer_cfgs
      = (take (S i) (children_names self),
         Ok ((λ layers, activation self image <$> layers) <$> layer_cfgs)).
Proof.
  intros Hnd Hne Hall.
  destruct (_find_deepest_layer_ok self layer_cfgs Hne Hall)
    as (deepest & i & Hfind & Hreq & Hi & Hmax).
  exists deepest, i. repeat (split; [done|]).
  unfold forward_traced. rewrite Hfind.
  destruct (forward_loop_spec (named_children self) deepest i image ∅ [] Hnd Hi)
    as (storage & -> & Hin & _).
  cbn [app]. f_equal.
  apply rmap_ok. intros layers Hlayers.
  apply rmap_ok. intros l Hl.
  destruct (Hmax l) as (j & Hj & Hle).
  { apply elem_of_concat. by exists layers. }
  unfold storage_get. rewrite (Hin l j Hj Hle).
  by rewrite (activation_find_index _ _ _ j).
Qed.

End EncoderFacts.

Section EncoderTheorems.

Context {T : Type}.
Implicit Types (self : MultiLayerEncoder T) (image : T).
Implicit Types (layer_cfgs : list (list string)) (layers : list string).

(** C1.  For an encoder with distinct layer names, [forward] on layer
    collections that name existing layers (at least one) runs the
    children once each, in order, from the first up to the deepest
    requested layer and no further, and returns for each collection the
    activations of its layers in the order of the collection.  The
    activation returned for a layer depends on the encoder, the image and
    the layer only: two requests, one for a collection and one for a
    subset of it, return identical activations for the shared layers. *)
Theorem forward_single_pass self image :
  NoDup (children_names self) →
  (∀ layer_cfgs,
     concat layer_cfgs ≠ [] →
     (∀ l, l ∈ concat layer_cfgs → l ∈ children_names self) →
     ∃ deepest i,
       _find_deepest_layer self layer_cfgs = Ok deepest ∧
       deepest ∈ concat layer_cfgs ∧
       PyStr.find_index deepest (children_names self) = Some i ∧
       (∀ l, l ∈ concat layer_cfgs →
          ∃ j, PyStr.find_index l (children_names self) = Some j ∧ j ≤ i) ∧
       forward_traced self image layer_cfgs
         = (take (S i) (children_names self),
            Ok ((λ layers, activation self image <$> layers) <$> layer_cfgs)))
  ∧
  (∀ layers1 layers2,
     layers2 ≠ [] →
     layers2 ⊆ layers1 →
     (∀ l, l ∈ layers1 → l ∈ children_names self) →
     ∃ encs1 encs2,
       forward self image [layers1] = Ok [encs1] ∧
       forward self image [layers2] = Ok [encs2] ∧
       length encs1 = length layers1 ∧
       length encs2 = length layers2 ∧
       ∀ l i1 i2, layers1 !! i1 = Some l → layers2 !! i2 = Some l →
         encs1 !! i1 = Some (activation self image l) ∧
         encs2 !! i2 = Some (activation self image l)).
Proof.
  intros Hnd. split.
  - intros layer_cfgs Hne Hall. by apply forward_traced_ok.
  - intros layers1 layers2 Hne Hsub Hall.
    assert (layers1 ≠ []) as Hne1.
    { intros ->. destruct layers2 as [|l ?]; [done|].
      specialize (Hsub l ltac:(by left)). by apply elem_of_nil in Hsub. }
    destruct (forward_traced_ok self image [layers1] Hnd) as (d1 & k1 & _ & _ & _ & _ & H1).
    { cbn. by rewrite app_nil_r. }
    { cbn. rewrite app_nil_r. done. }
    destruct (forward_traced_ok self image [layers2] Hnd) as (d2 & k2 & _ & _ & _ & _ & H2).
    { cbn. by rewrite app_nil_r. }
    { cbn. rewrite app_nil_r. intros l Hl. by apply Hall, Hsub. }
    exists (activation self image <$> layers1), (activation self image <$> layers2).
    unfold forward. rewrite H1, H2. cbn.
    repeat (split; [done || by rewrite length_fmap|]).
    intros l i1 i2 Hi1 Hi2. rewrite !list_lookup_fmap, Hi1, Hi2. done.
Qed.

(** Supporting fact for C3: a request that names a layer the encoder does
    not have makes [forward] raise a [ValueError] before any child is
    run; its message is built from the first word of the [repr] of one
    of the missing layers. *)
Lemma forward_unknown_layer self image layer_cfgs :
  (∃ l, l ∈ concat layer_cfgs ∧ l ∉ children_names self) →
  ∃ l, l ∈ concat layer_cfgs ∧ (l ∉ children_names self) ∧
    forward_traced self image layer_cfgs = ([], Raise (ValueError (missing_msg l))) ∧
    trim self layer_cfgs = Raise (ValueError (missing_msg l)).
Proof.
  intros Hmiss.
  destruct (_find_deepest_layer_missing self layer_cfgs Hmiss) as (l & Hl & Hm & Hfind).
  exists l. repeat (split; [done|]).
  unfold forward_traced, trim. by rewrite Hfind.
Qed.

(** Supporting fact for C3: when every requested layer exists, neither
    [forward] nor [trim] raises a [ValueError]. *)
Lemma forward_known_layers self image layer_cfgs msg :
  NoDup (children_names self) →
  (∀ l, l ∈ concat layer_cfgs → l ∈ children_names self) →
  forward self image layer_cfgs ≠ Raise (ValueError msg) ∧
  trim self layer_cfgs ≠ Raise (ValueError msg).
Proof.
  intros Hnd Hall. destruct (decide (concat layer_cfgs = [])) as [Hnil|Hne].
  - unfold forward, forward_traced, trim.
    by rewrite (_find_deepest_layer_empty self layer_cfgs Hnil).
  - destruct (forward_traced_ok self image layer_cfgs Hnd Hne Hall)
      as (d & i & Hfind & _ & Hi & _ & Hfw).
    unfold forward. rewrite Hfw. split; [done|].
    unfold trim. rewrite Hfind. cbn.
    apply PyStrFacts.index_Ok in Hi. by rewrite Hi.
Qed.

(** The missing layer's name survives in the message when it has no
    space in it. *)
Lemma missing_msg_my_layer :
  missing_msg "relu9_9" = "Layer 'relu9_9' is not part of the multi-layer encoder."
  ∧ missing_msg "my layer" = "Layer 'my is not part of the multi-layer encoder.".
Proof. split; reflexivity. Qed.

(** C3, at the failing input.  An encoder with the single layer
    [conv1_1] is asked for the layer [my layer]: [forward] and [trim]
    raise a [ValueError] whose message names ['my], the first word of
    the [repr] of the missing layer, and not the layer. *)
Theorem unknown_layer_message_truncated (module : T → T) image :
  let self : MultiLayerEncoder T := [("conv1_1", module)] in
  forward self image [["my layer"]]
    = Raise (ValueError "Layer 'my is not part of the multi-layer encoder.")
  ∧ trim self [["my layer"]]
    = Raise (ValueError "Layer 'my is not part of the multi-layer encoder.").
Proof.
  intros self.
  destruct (forward_unknown_layer self image [["my layer"]]) as (l & Hl & _ & Hfw & Htrim).
  { exists "my layer". split; [by left|]. unfold self.
    apply (bool_decide_unpack _). vm_compute. exact I. }
  cbn in Hl. apply list_elem_of_singleton in Hl as ->.
  unfold forward. rewrite Hfw, Htrim. cbn [snd].
  destruct missing_msg_my_layer as [_ ->]. by split.
Qed.

Lemma find_index_take l (names : list string) j n :
  PyStr.find_index l names = Some j → j < n →
  PyStr.find_index l (take n names) = Some j.
Proof.
  revert j n. induction names as [|x names IH]; intros j n; [done|].
  cbn. destruct n as [|n]; [lia|]. cbn. case_decide; [done|].
  destruct (PyStr.find_index l names) as [j'|] eqn:Hj'; [|done].
  intros [= <-] Hlt. by rewrite (IH j' n) by (done || lia).
Qed.

Lemma activation_take self image l j i :
  PyStr.find_index l (children_names self) = Some j → j ≤ i →
  activation (take (S i) self) image l = activation self image l.
Proof.
  intros Hj Hle. rewrite (activation_find_index self image l j Hj).
  rewrite (activation_find_index _ image l j).
  - rewrite take_take. f_equal. f_equal. lia.
  - rewrite children_names_take. apply find_index_take; [done|lia].
Qed.

Lemma trim_take self layer_cfgs deepest i :
  _find_deepest_layer self layer_cfgs = Ok deepest →
  PyStr.find_index deepest (children_names self) = Some i →
  trim self layer_cfgs = Ok (take (S i) self).
Proof.
  intros Hfind Hi. unfold trim. rewrite Hfind. cbn.
  apply PyStrFacts.index_Ok in Hi. rewrite Hi. cbn. by rewrite Nat.add_1_r.
Qed.

(** Cutting the encoder after position [i] does not change what
    [forward] returns for layers at positions up to [i]. *)
Lemma forward_take self i image layer_cfgs :
  NoDup (children_names self) →
  (∀ l, l ∈ concat layer_cfgs →
     ∃ j, PyStr.find_index l (children_names self) = Some j ∧ j ≤ i) →
  forward (take (S i) self) image layer_cfgs = forward self image layer_cfgs.
Proof.
  intros Hnd Hmax.
  destruct (decide (concat layer_cfgs = [])) as [Hnil|Hne].
  { unfold forward, forward_traced.
    by rewrite !(_find_deepest_layer_empty _ layer_cfgs Hnil). }
  assert (∀ l, l ∈ concat layer_cfgs → l ∈ children_names self) as Hall.
  { intros l Hl. destruct (Hmax l Hl) as (j & Hj & _).
    eapply list_elem_of_lookup_2. by apply PyStrFacts.find_index_Some. }
  assert (∀ l, l ∈ concat layer_cfgs → l ∈ children_names (take (S i) self)) as Hall'.
  { intros l Hl. destruct (Hmax l Hl) as (j & Hj & Hle).
    rewrite children_names_take. eapply list_elem_of_lookup_2.
    apply PyStrFacts.find_index_Some. apply find_index_take; [done|lia]. }
  destruct (forward_traced_ok self image layer_cfgs Hnd Hne Hall)
    as (d1 & k1 & _ & _ & _ & _ & H1).
  destruct (forward_traced_ok (take (S i) self) image layer_cfgs)
    as (d2 & k2 & _ & _ & _ & _ & H2); [|done|done|].
  { rewrite children_names_take. eapply sublist_NoDup; [done|apply sublist_take]. }
  unfold forward. rewrite H1, H2. cbn. f_equal.
  apply list_fmap_ext. intros n layers Hlayers.
  apply list_fmap_ext. intros m l Hl.
  destruct (Hmax l) as (j & Hj & Hle).
  { apply elem_of_concat. exists layers. split; by eapply list_elem_of_lookup_2. }
  by apply (activation_take self image l j i).
Qed.

(** C7.  For an encoder with distinct layer names and layer collections
    that name existing layers (at least one), [trim] leaves the children
    up to and including the deepest requested layer and removes exactly
    those after it; on the trimmed encoder, [forward] for any collections
    made of requested layers returns what it returned before. *)
Theorem trim_keeps_requested self layer_cfgs :
  NoDup (children_names self) →
  concat layer_cfgs ≠ [] →
  (∀ l, l ∈ concat layer_cfgs → l ∈ children_names self) →
  ∃ deepest i,
    _find_deepest_layer self layer_cfgs = Ok deepest ∧
    deepest ∈ concat layer_cfgs ∧
    PyStr.find_index deepest (children_names self) = Some i ∧
    (∀ l, l ∈ concat layer_cfgs →
       ∃ j, PyStr.find_index l (children_names self) = Some j ∧ j ≤ i) ∧
    trim self layer_cfgs = Ok (take (S i) self) ∧
    (∀ j child, take (S i) self !! j = Some child ↔ self !! j = Some child ∧ j ≤ i) ∧
    (∀ image layer_cfgs',
       (∀ l, l ∈ concat layer_cfgs' → l ∈ concat layer_cfgs) →
       forward (take (S i) self) image layer_cfgs' = forward self image layer_cfgs').
Proof.
  intros Hnd Hne Hall.
  destruct (_find_deepest_layer_ok self layer_cfgs Hne Hall)
    as (deepest & i & Hfind & Hreq & Hi & Hmax).
  exists deepest, i. repeat (split; [done|]). split; [|split].
  - by apply (trim_take self layer_cfgs deepest).
  - intros j child. rewrite lookup_take_Some.
    assert (j < S i ↔ j ≤ i) as -> by lia. done.
  - intros image layer_cfgs' Hsub. apply forward_take; [done|].
    intros l Hl. by apply Hmax, Hsub.
Qed.

End EncoderTheorems.

Lemma demo_encoder_NoDup : NoDup (children_names demo_encoder).
Proof. apply (bool_decide_unpack _). by vm_compute. Defined.

Lemma forward_single_pass_witness :
  forward_traced demo_encoder 1 [["relu1_1"]; ["conv1_1"; "relu1_1"]]
    = (["conv1_1"; "relu1_1"], Ok [[4]; [2; 4]])
  ∧ ∃ encs1 encs2,
      forward demo_encoder 1 [["conv1_1"; "relu1_1"]] = Ok [encs1] ∧
      forward demo_encoder 1 [["relu1_1"]] = Ok [encs2] ∧
      encs1 !! 1 = Some 4 ∧ encs2 !! 0 = Some 4.
Proof.
  destruct (forward_single_pass demo_encoder 1 demo_encoder_NoDup) as [Hpass Hshared].
  split.
  - destruct (Hpass [["relu1_1"]; ["conv1_1"; "relu1_1"]])
      as (deepest & i & Hd & _ & Hi & _ & Hfw).
    + done.
    + apply Forall_forall. apply (bool_decide_unpack _). by vm_compute.
    + rewrite Hfw. vm_compute in Hd. injection Hd as <-.
      vm_compute in Hi. injection Hi as <-. reflexivity.
  - destruct (Hshared ["conv1_1"; "relu1_1"] ["relu1_1"])
      as (encs1 & encs2 & H1 & H2 & _ & _ & Hsame).
    + done.
    + apply (bool_decide_unpack _). by vm_compute.
    + apply Forall_forall. apply (bool_decide_unpack _). by vm_compute.
    + exists encs1, encs2. split; [exact H1|]. split; [exact H2|].
      destruct (Hsame "relu1_1" 1 0 eq_refl eq_refl) as [-> ->].
      split; reflexivity.
Defined.

Lemma trim_keeps_requested_witness :
  trim demo_encoder [["relu1_1"]; ["conv1_1"]] = Ok (take 2 demo_encoder)
  ∧ forward (take 2 demo_encoder) 1 [["relu1_1"]; ["conv1_1"]]
    = forward demo_encoder 1 [["relu1_1"]; ["conv1_1"]].
Proof.
  destruct (trim_keeps_requested demo_encoder [["relu1_1"]; ["conv1_1"]])
    as (deepest & i & Hd & _ & Hi & _ & Htrim & _ & Hfw).
  - exact demo_encoder_NoDup.
  - done.
  - apply Forall_forall. apply (bool_decide_unpack _). by vm_compute.
  - vm_compute in Hd. injection Hd as <-. vm_compute in Hi. injection Hi as <-.
    split; [exact Htrim|]. by apply Hfw.
Defined.

(** ** The multi-layer losses *)

Section LossFacts.

Context {R : Type} `{Scalar R}.
Implicit Types (self : MultiLayerLoss R) (input_encs targets : list (Tensor R)).

Lemma readonly_bind {A B} (m : Method (R:=R) A) (k : A → Method (R:=R) B) :
  readonly m → (∀ a, readonly (k a)) → readonly (bind m k).
Proof.
  intros Hm Hk self. unfold bind. specialize (Hm self).
  destruct (m self) as [[a|e] self']; cbn in *; subst; [apply Hk|done].
Qed.

Lemma readonly_for_each {A B} (f : A → Method (R:=R) B) xs :
  (∀ x, readonly (f x)) → readonly (for_each f xs).
Proof.
  intros Hf. induction xs as [|x xs IH]; [done|].
  cbn. apply readonly_bind; [done|]. intros y.
  apply readonly_bind; [done|]. done.
Qed.

Lemma readonly_get_buffer name : readonly (get_buffer (R:=R) name).
Proof. intros self. unfold get_buffer. by destruct (_ !! _). Qed.

Lemma readonly_target_encs : readonly (target_encs (R:=R)).
Proof.
  apply readonly_bind; [done|]. intros n.
  apply readonly_for_each. intros idx. apply readonly_get_buffer.
Qed.

(** [forward] never changes the loss it is called on. *)
Lemma readonly_loss_forward input_encs : readonly (loss_forward input_encs).
Proof.
  apply readonly_bind; [done|]. intros n. case_decide; [done|].
  apply readonly_bind; [apply readonly_target_encs|]. intros targets.
  repeat (apply readonly_bind; [done|]; intros ?). done.
Qed.

Lemma for_each_get_buffer {A} (name : A → string) self xs (vals : list (Tensor R)) :
  Forall2 (λ x v, _buffers self !! name x = Some v) xs vals →
  for_each (λ x, get_buffer (name x)) xs self = (Ok vals, self).
Proof.
  induction 1 as [|x v xs vals Hx _ IH]; [done|].
  cbn. unfold bind at 1. unfold get_buffer at 1. rewrite Hx.
  unfold bind at 1. by rewrite IH.
Qed.

Lemma for_each_get_buffer_length self (idxs : list nat) (r : list (Tensor R)) self' :
  for_each (λ idx, get_buffer (_target_enc_name idx)) idxs self = (Ok r, self') →
  length r = length idxs.
Proof.
  revert r self'. induction idxs as [|i idxs IH]; intros r self'.
  - by intros [= <- _].
  - cbn. unfold bind at 1. unfold get_buffer at 1.
    destruct (_buffers self !! _); [|done]. unfold bind at 1.
    destruct (for_each _ idxs self) as [[r'|] s''] eqn:Hr; [|done].
    intros [= <- _]. cbn. f_equal. by eapply IH.
Qed.

Lemma target_encs_length self targets :
  (target_encs self).1 = Ok targets → length targets = _numel_target_encs self.
Proof.
  unfold target_encs, bind, getattr. cbn.
  destruct (for_each _ _ self) as [r self'] eqn:Hfe. cbn. intros ->.
  apply for_each_get_buffer_length in Hfe. by rewrite Hfe, length_seq.
Qed.

(** The stored targets are the buffers [_target_encs_0 ..]. *)
Lemma target_encs_ok self targets :
  length targets = _numel_target_encs self →
  (∀ idx t, targets !! idx = Some t →
     _buffers self !! _target_enc_name idx = Some t) →
  target_encs self = (Ok targets, self).
Proof.
  intros Hlen Hbuf. unfold target_encs, bind, getattr.
  apply for_each_get_buffer.
  apply Forall2_same_length_lookup_2; [by rewrite length_seq|].
  intros idx x t Hx Ht. apply lookup_seq in Hx as [-> _]. by apply Hbuf.
Qed.

Lemma _target_enc_name_inj : Inj (=) (=) _target_enc_name.
Proof.
  intros i j Hij. unfold _target_enc_name in Hij.
  apply String.app_inj in Hij. by apply pretty_nat_inj in Hij.
Qed.

(** *** [set_target_encs] *)

Lemma for_each_register self (entries : list (nat * Tensor R)) :
  ∃ units,
    for_each (λ '(idx, enc), register_buffer (_target_enc_name idx) (detach enc)) entries self
    = (Ok units,
       {| loss_class := loss_class self; score_weight := score_weight self;
          _numel_target_encs := _numel_target_encs self;
          _buffers := store (_buffers self) entries |}).
Proof.
  revert self. induction entries as [|[idx enc] entries IH]; intros self.
  - exists []. by destruct self.
  - cbn. unfold bind at 1. cbn.
    edestruct IH as [units ->]. unfold bind. cbn. eexists. reflexivity.
Qed.

Lemma store_lookup_other buffers k n targets name :
  (∀ idx, k ≤ idx < k + n → name ≠ _target_enc_name idx) →
  store buffers (zip (seq k n) targets) !! name = buffers !! name.
Proof.
  revert k buffers targets. induction n as [|n IH]; intros k buffers targets Hname; [done|].
  destruct targets as [|t targets]; [done|].
  change (store buffers (zip (seq k (S n)) (t :: targets)))
    with (store (<[_target_enc_name k := t]> buffers) (zip (seq (S k) n) targets)).
  rewrite IH by (intros idx ?; apply Hname; lia).
  apply lookup_insert_ne. intros Heq. by apply (Hname k ltac:(lia)).
Qed.

Lemma store_lookup buffers k targets i t :
  targets !! i = Some t →
  store buffers (zip (seq k (length targets)) targets) !! _target_enc_name (k + i) = Some t.
Proof.
  revert k buffers i. induction targets as [|t' targets IH]; intros k buffers i; [done|].
  change (store buffers (zip (seq k (length (t' :: targets))) (t' :: targets)))
    with (store (<[_target_enc_name k := t']> buffers)
                (zip (seq (S k) (length targets)) targets)).
  destruct i as [|i]; cbn [lookup list_lookup].
  - intros [= ->].
    rewrite store_lookup_other.
    + rewrite Nat.add_0_r. apply lookup_insert_eq.
    + intros idx Hidx Heq. apply _target_enc_name_inj in Heq. lia.
  - intros Hi. replace (k + S i) with (S k + i) by lia. by apply IH.
Qed.

Lemma imap_enumerate {A} (l : list A) k :
  imap (λ idx x, (k + idx, x)) l = zip (seq k (length l)) l.
Proof.
  revert k. induction l as [|x l IH]; intros k; [done|].
  cbn. rewrite Nat.add_0_r. f_equal. rewrite <- IH.
  apply imap_ext. intros i y _. cbn. f_equal. lia.
Qed.

(** [set_target_encs] returns; it stores the count and the targets, and
    keeps the class and the score weight. *)
Lemma set_target_encs_spec targets self :
  ∃ self',
    set_target_encs targets self = (Ok (), self') ∧
    loss_class self' = loss_class self ∧
    score_weight self' = score_weight self ∧
    _numel_target_encs self' = length targets ∧
    target_encs self' = (Ok targets, self').
Proof.
  unfold set_target_encs. unfold bind at 1. cbn.
  change (imap (λ idx enc, (idx, enc)) targets)
    with (imap (λ idx (enc : Tensor R), (0 + idx, enc)) targets).
  rewrite imap_enumerate.
  edestruct for_each_register as [units Hreg]. unfold bind at 1. rewrite Hreg. cbn.
  eexists. split; [done|]. repeat (split; [done|]).
  apply target_encs_ok; [done|]. cbn. intros idx t Ht.
  by apply (store_lookup _ 0).
Qed.

(** *** [forward] *)

Lemma loss_forward_mismatch_raises self input_encs :
  length input_encs ≠ _numel_target_encs self →
  loss_forward input_encs self
  = (Raise (RuntimeError (mismatch_msg (length input_encs) (_numel_target_encs self))), self).
Proof.
  intros Hne. unfold loss_forward, bind, getattr. cbn. by rewrite decide_True.
Qed.

(** What [forward] computes once the count matches. *)
Lemma loss_forward_matching self input_encs :
  length input_encs = _numel_target_encs self →
  (loss_forward input_encs self).1 =
    (targets ← (target_encs self).1;
     layer_losses ← rmap (λ '(input, target), calculate_score (loss_class self) input target)
                         (zip input_encs targets);
     m ← mean layer_losses;
     Ok (smul m (score_weight self))).
Proof.
  intros Hlen. unfold loss_forward. unfold bind at 1. cbn -[target_encs].
  rewrite decide_False by (intros ?; done).
  unfold bind at 1. pose proof (readonly_target_encs self) as Hro.
  destruct (target_encs self) as [[targets|e] self']; cbn -[target_encs] in *; subst; [|done].
  unfold bind, getattr, lift. cbn.
  destruct (rmap _ _) as [losses|e]; cbn; [|done].
  by destruct (mean losses).
Qed.

(** No class of loss raises a [RuntimeError] of its own when scoring. *)
Lemma mse_loss_no_RuntimeError (a b : Tensor R) msg :
  mse_loss a b ≠ Raise (RuntimeError msg).
Proof. unfold mse_loss. by destruct (broadcast_shapes _ _). Qed.

Lemma channelwise_gram_matrix_no_RuntimeError (x : Tensor R) normalize msg :
  channelwise_gram_matrix x normalize ≠ Raise (RuntimeError msg).
Proof.
  unfold channelwise_gram_matrix, flatten. case_decide; cbn; [|done].
  unfold transpose. case_decide; cbn; [|done].
  unfold bmm. cbn.
  repeat (match goal with |- context [match ?l with _ => _ end] => destruct l end;
          cbn; try done).
Qed.

Lemma calculate_score_no_RuntimeError cls (a b : Tensor R) msg :
  calculate_score cls a b ≠ Raise (RuntimeError msg).
Proof.
  destruct cls; cbn; [done|apply mse_loss_no_RuntimeError|].
  unfold gram_loss.
  pose proof (channelwise_gram_matrix_no_RuntimeError a true msg).
  destruct (channelwise_gram_matrix a true); cbn; [|congruence].
  pose proof (channelwise_gram_matrix_no_RuntimeError b true msg).
  destruct (channelwise_gram_matrix b true); cbn; [|congruence].
  apply mse_loss_no_RuntimeError.
Qed.

Lemma target_encs_no_RuntimeError self msg :
  (target_encs self).1 ≠ Raise (RuntimeError msg).
Proof.
  unfold target_encs, bind, getattr. cbn.
  generalize (seq 0 (_numel_target_encs self)). intros idxs.
  induction idxs as [|idx idxs IH]; [done|].
  cbn. unfold bind at 1. unfold get_buffer at 1.
  destruct (_buffers self !! _); cbn; [|done].
  unfold bind at 1.
  destruct (for_each _ idxs self) as [[ts|e] self']; cbn in *; [done|congruence].
Qed.

End LossFacts.

Section LossTheorems.

Context {R : Type} `{Scalar R}.
Implicit Types (self : MultiLayerLoss R) (input_encs targets : list (Tensor R)).

Lemma rmap_total {A B} (f : A → result B) (xs : list A) :
  (∀ x, x ∈ xs → is_Ok (f x)) → ∃ ys, rmap f xs = Ok ys ∧ length ys = length xs.
Proof.
  induction xs as [|x xs IH]; intros Hf; [by exists []|].
  destruct (Hf x) as [y Hy]; [by left|].
  destruct IH as (ys & Hys & Hlen); [intros z Hz; apply Hf; by right|].
  exists (y :: ys). cbn. rewrite Hy. cbn. rewrite Hys. cbn. by rewrite Hlen.
Qed.

Lemma rmap_length {A B} (f : A → result B) (xs : list A) ys :
  rmap f xs = Ok ys → length ys = length xs.
Proof. intros Hr. apply rmap_inv in Hr. symmetry. by eapply Forall2_length. Qed.

Lemma loss_forward_Ok_inv self input_encs score :
  (loss_forward input_encs self).1 = Ok score →
  length input_encs = _numel_target_encs self ∧ input_encs ≠ [].
Proof.
  intros Hok.
  destruct (decide (length input_encs = _numel_target_encs self)) as [Hlen|Hne].
  2:{ by rewrite loss_forward_mismatch_raises in Hok. }
  split; [done|]. intros ->.
  rewrite loss_forward_matching in Hok by done.
  destruct (target_encs self).1 as [targets|]; cbn in Hok; done.
Qed.

(** C4.  A loss with no stored targets raises its [RuntimeError] on every
    non-empty list of input encodings and returns no score; when
    [forward] returns a score, targets are stored, as many as there are
    input encodings; and after [set_target_encs] on a fresh loss, with as
    many targets as inputs (at least one) and layer scores that
    are defined, [forward] does return a score. *)
Theorem loss_forward_uninitialized :
  (∀ self input_encs,
     _numel_target_encs self = 0 → input_encs ≠ [] →
     loss_forward input_encs self
     = (Raise (RuntimeError (mismatch_msg (length input_encs) 0)), self))
  ∧ (∀ cls score_weight input_encs,
       input_encs ≠ [] →
       ¬ is_Ok (loss_forward input_encs (MultiLayerLoss_init cls score_weight)).1)
  ∧ (∀ self input_encs score,
       (loss_forward input_encs self).1 = Ok score →
       0 < _numel_target_encs self ∧ _numel_target_encs self = length input_encs ∧
       ∃ targets, (target_encs self).1 = Ok targets ∧ length targets = length input_encs)
  ∧ (∀ cls score_weight targets input_encs,
       input_encs ≠ [] →
       Forall2 (λ input target, is_Ok (calculate_score cls input target)) input_encs targets →
       is_Ok (loss_forward input_encs
                (set_target_encs targets (MultiLayerLoss_init cls score_weight)).2).1).
Proof.
  assert (∀ self input_encs,
     _numel_target_encs self = 0 → input_encs ≠ [] →
     loss_forward input_encs self
     = (Raise (RuntimeError (mismatch_msg (length input_encs) 0)), self)) as Huninit.
  { intros self input_encs Hnum Hne.
    rewrite loss_forward_mismatch_raises; [by rewrite Hnum|].
    rewrite Hnum. by destruct input_encs. }
  split; [exact Huninit|]. split; [|split].
  - intros cls w input_encs Hne [score Hok]. by rewrite Huninit in Hok.
  - intros self input_encs score Hok.
    destruct (loss_forward_Ok_inv _ _ _ Hok) as [Hlen Hne].
    split; [rewrite <- Hlen; destruct input_encs; [done|cbn; lia]|].
    split; [done|].
    rewrite loss_forward_matching in Hok by done.
    destruct (target_encs self).1 as [targets|e] eqn:Ht; cbn in Hok; [|done].
    exists targets. split; [done|].
    apply target_encs_length in Ht. congruence.
  - intros cls w targets input_encs Hne Hall.
    destruct (set_target_encs_spec targets (MultiLayerLoss_init cls w))
      as (self' & Hset & Hcls & Hw & Hnum & Htargets).
    rewrite Hset. cbn [snd].
    pose proof (Forall2_length _ _ _ Hall) as Hlen.
    rewrite loss_forward_matching by congruence.
    rewrite Htargets. cbn [fst]. cbn [mbind result_bind].
    destruct (rmap_total (λ '(input, target), calculate_score (loss_class self') input target)
                (zip input_encs targets)) as (losses & -> & Hlosses).
    { intros [input target] Hin. rewrite Hcls.
      apply list_elem_of_lookup in Hin as [i Hi].
      apply lookup_zip_with_Some in Hi as (a & b & [= <- <-] & Ha & Hb).
      exact (Forall2_lookup_lr _ _ _ _ _ _ Hall Ha Hb). }
    cbn [mbind result_bind]. unfold mean. rewrite decide_False.
    + by eexists.
    + rewrite Hlosses, length_zip, <- Hlen, Nat.min_id. by destruct input_encs.
Qed.

(** C9.  [forward] raises its mismatch error exactly when the number of
    input encodings differs from the stored number of targets; no other
    [RuntimeError] of the modelled code reaches the caller; and in every
    case, so in the error case, the loss is left as it was: targets,
    target count and score weight. *)
Theorem loss_forward_mismatch_iff self input_encs :
  ((loss_forward input_encs self).1
     = Raise (RuntimeError (mismatch_msg (length input_encs) (_numel_target_encs self)))
   ↔ length input_encs ≠ _numel_target_encs self)
  ∧ (∀ msg, (loss_forward input_encs self).1 = Raise (RuntimeError msg) →
       length input_encs ≠ _numel_target_encs self)
  ∧ (loss_forward input_encs self).2 = self.
Proof.
  assert (∀ msg, (loss_forward input_encs self).1 = Raise (RuntimeError msg) →
            length input_encs ≠ _numel_target_encs self) as Honly.
  { intros msg Hraise Hlen. rewrite loss_forward_matching in Hraise by done.
    pose proof (target_encs_no_RuntimeError self msg) as Ht.
    destruct (target_encs self).1 as [targets|e]; cbn in Hraise; [|congruence].
    destruct (rmap _ _) as [losses|e] eqn:Hr; cbn in Hraise.
    - unfold mean in Hraise. by case_decide.
    - injection Hraise as ->. apply rmap_raise in Hr as ([a b] & _ & Hab).
      by apply calculate_score_no_RuntimeError in Hab. }
  split; [split|split].
  - apply Honly.
  - intros Hne. by rewrite loss_forward_mismatch_raises.
  - exact Honly.
  - apply readonly_loss_forward.
Qed.


End LossTheorems.

Lemma loss_forward_uninitialized_witness :
  (loss_forward demo_inputs (MultiLayerLoss_init ContentLoss (Q2Qc 3))).1
  = Raise (RuntimeError
      "The number of given input encodings and stored target encodings does not match: 2 != 0")
  ∧ is_Ok (loss_forward demo_inputs demo_loss).1.
Proof.
  destruct (loss_forward_uninitialized (R:=Qc)) as (Huninit & _ & _ & Hset).
  split.
  - rewrite Huninit; [reflexivity|reflexivity|discriminate].
  - apply Hset; [discriminate|].
    repeat constructor; eexists; vm_compute; reflexivity.
Defined.

Lemma loss_forward_mismatch_iff_witness :
  (loss_forward [scalar_tensor (Q2Qc 1)] demo_loss).1
  = Raise (RuntimeError
      "The number of given input encodings and stored target encodings does not match: 1 != 2")
  ∧ (loss_forward [scalar_tensor (Q2Qc 1)] demo_loss).2 = demo_loss.
Proof.
  destruct (loss_forward_mismatch_iff demo_loss [scalar_tensor (Q2Qc 1)]) as ([_ Hraise] & _ & Hsame).
  split; [|exact Hsame].
  rewrite Hraise; [reflexivity|]. vm_compute. discriminate.
Defined.



(** ** Tensors and the Gram matrix *)

Section TensorFacts.

Context {R : Type} `{Scalar R}.
Implicit Types (x : Tensor R).

Lemma flatten_2 x B C spatial :
  size x = B :: C :: spatial → spatial ≠ [] →
  ∃ xf, flatten x 2 = Ok xf ∧ size xf = [B; C; numel_of spatial] ∧
    ∀ b c k, item xf [b; c; k] = item x (b :: c :: unravel spatial k).
Proof.
  intros Hsize Hsp. unfold flatten. rewrite Hsize.
  rewrite decide_True by (destruct spatial; [done|cbn; lia]).
  eexists. split; [done|]. by split.
Qed.

(** The Gram matrix of [x], entry by entry. *)
Lemma channelwise_gram_matrix_spec x B C spatial :
  size x = B :: C :: spatial → spatial ≠ [] →
  ∃ xf G,
    flatten x 2 = Ok xf ∧
    channelwise_gram_matrix x false = Ok G ∧
    channelwise_gram_matrix x true = Ok (div_int G (numel_of spatial)) ∧
    size G = [B; C; C] ∧
    ∀ b i j, item G [b; i; j]
             = py_sum ((λ k, smul (item xf [b; i; k]) (item xf [b; j; k]))
                       <$> seq 0 (numel_of spatial)).
Proof.
  intros Hsize Hsp.
  destruct (flatten_2 x B C spatial Hsize Hsp) as (xf & Hf & Hxf & _).
  exists xf. unfold channelwise_gram_matrix. rewrite Hf. cbn [mbind result_bind].
  unfold transpose. rewrite Hxf. rewrite decide_True by (cbn; lia).
  cbn [mbind result_bind]. unfold bmm. cbn [size swap lookup list_lookup insert list_insert].
  rewrite Hxf. rewrite decide_True by done. cbn [mbind result_bind].
  eexists. split; [done|]. split; [reflexivity|]. split; [reflexivity|]. by split.
Qed.

Lemma py_sum_zeros {A} (l : list A) :
  (∀ a : R, sadd szero a = a) → py_sum ((λ _, szero) <$> l) = szero.
Proof.
  intros Hz. unfold py_sum. induction l as [|a l IH]; [done|].
  cbn. by rewrite Hz.
Qed.

Lemma broadcast_rev_diag (r : list nat) : broadcast_rev r r = Some r.
Proof.
  induction r as [|d r IH]; [done|].
  cbn. unfold broadcast_dim. rewrite decide_True by done. cbn. by rewrite IH.
Qed.

Lemma broadcast_shapes_diag (s : list nat) : broadcast_shapes s s = Some s.
Proof. unfold broadcast_shapes. by rewrite broadcast_rev_diag; cbn; rewrite reverse_involutive. Qed.

Lemma numel_of_pos_cons d s : 0 < numel_of (d :: s) ↔ 0 < d ∧ 0 < numel_of s.
Proof.
  change (numel_of (d :: s)) with (d * numel_of s).
  destruct d, (numel_of s); lia.
Qed.

End TensorFacts.

Section TensorTheorems.

Context {R : Type} `{Scalar R}.
Implicit Types (x : Tensor R).

(** The distance of a non-empty tensor to itself is zero. *)
Lemma mse_loss_self `{!ScalarLaws R} x :
  0 < numel x → mse_loss x x = Ok szero.
Proof.
  intros Hpos. unfold mse_loss. rewrite broadcast_shapes_diag. f_equal.
  cbn [expand item size].
  match goal with |- context [py_sum (?f <$> ?l)] =>
    assert (f <$> l = (λ _, szero) <$> l) as ->
      by (apply list_fmap_ext; intros; by rewrite ssub_diag, smul_zero_l)
  end.
  rewrite py_sum_zeros by apply sadd_zero_l.
  unfold numel in Hpos. destruct (numel_of (size x)); [lia|]. apply sdiv_zero_l.
Qed.

Lemma gram_loss_self `{!ScalarLaws R} x :
  3 ≤ length (size x) → 0 < numel x → gram_loss x x = Ok szero.
Proof.
  intros Hrank Hpos.
  destruct (size x) as [|B [|C spatial]] eqn:Hsize; [cbn in Hrank; lia..|].
  assert (spatial ≠ []) as Hsp by (intros ->; cbn in Hrank; lia).
  destruct (channelwise_gram_matrix_spec x B C spatial Hsize Hsp)
    as (xf & G & _ & _ & HG & HsG & _).
  unfold gram_loss. rewrite HG. cbn [mbind result_bind].
  apply mse_loss_self. unfold numel in *. cbn [div_int size]. rewrite HsG.
  rewrite Hsize in Hpos.
  apply numel_of_pos_cons in Hpos as [HB Hpos].
  apply numel_of_pos_cons in Hpos as [HC _]. cbn. nia.
Qed.

(** C10.  For a tensor [x] of size [B, C, spatial...], with commutative
    multiplication of entries: the normalised Gram matrix is the
    unnormalised one divided, entry by entry, by the number of flattened
    spatial positions; both have size [B, C, C] and each of their
    per-batch matrices is equal to its transpose. *)
Theorem channelwise_gram_matrix_normalize x :
  (∀ a b : R, smul a b = smul b a) →
  3 ≤ length (size x) →
  ∃ B C spatial G Gn,
    size x = B :: C :: spatial ∧
    channelwise_gram_matrix x false = Ok G ∧
    channelwise_gram_matrix x true = Ok Gn ∧
    size G = [B; C; C] ∧ size Gn = [B; C; C] ∧
    (∀ ix, item Gn ix = sdiv (item G ix) (sof_nat (numel_of spatial))) ∧
    (∀ b i j, item G [b; i; j] = item G [b; j; i]) ∧
    (∀ b i j, item Gn [b; i; j] = item Gn [b; j; i]) ∧
    (∃ GT, transpose G 1 2 = Ok GT ∧ size GT = size G ∧
           ∀ b i j, item GT [b; i; j] = item G [b; i; j]) ∧
    (∃ GnT, transpose Gn 1 2 = Ok GnT ∧ size GnT = size Gn ∧
            ∀ b i j, item GnT [b; i; j] = item Gn [b; i; j]).
Proof.
  intros Hcomm Hrank.
  destruct (size x) as [|B [|C spatial]] eqn:Hsize; [cbn in Hrank; lia..|].
  assert (spatial ≠ []) as Hsp by (intros ->; cbn in Hrank; lia).
  destruct (channelwise_gram_matrix_spec x B C spatial Hsize Hsp)
    as (xf & G & _ & HG & HGn & HsG & Hitem).
  assert (∀ b i j, item G [b; i; j] = item G [b; j; i]) as Hsym.
  { intros b i j. rewrite !Hitem. f_equal.
    apply list_fmap_ext. intros _ k _. apply Hcomm. }
  exists B, C, spatial, G, (div_int G (numel_of spatial)).
  do 5 (split; [done|]). split; [done|]. split; [|split; [|split]].
  - exact Hsym.
  - intros b i j. cbn. by rewrite Hsym.
  - unfold transpose. rewrite HsG. rewrite decide_True by (cbn; lia).
    eexists. split; [done|]. split; [done|]. intros b i j. cbn. apply Hsym.
  - unfold transpose. cbn [div_int size]. rewrite HsG. rewrite decide_True by (cbn; lia).
    eexists. split; [done|]. split; [done|]. intros b i j. cbn. by rewrite Hsym.
Qed.

End TensorTheorems.

#[global] Instance Qc_scalar_laws : ScalarLaws Qc.
Proof.
  split.
  - intros a b. cbn. ring.
  - intros a. cbn. ring.
  - intros a. cbn. ring.
  - intros a. cbn. ring.
  - intros n. cbn. unfold Qcdiv. ring.
Qed.

Lemma channelwise_gram_matrix_normalize_witness :
  ∃ G Gn,
    channelwise_gram_matrix demo_tensor false = Ok G ∧
    channelwise_gram_matrix demo_tensor true = Ok Gn ∧
    size Gn = [1; 2; 2] ∧
    item Gn [0; 0; 1] = sdiv (item G [0; 0; 1]) (sof_nat 4) ∧
    item G [0; 0; 1] = item G [0; 1; 0].
Proof.
  destruct (channelwise_gram_matrix_normalize demo_tensor)
    as (B & C & spatial & G & Gn & Hsize & HG & HGn & _ & HsGn & Hdiv & Hsym & _).
  - intros a b. apply Qcmult_comm.
  - cbn. lia.
  - injection Hsize as <- <- <-.
    exists G, Gn. repeat (split; [assumption|]). split; [apply Hdiv|apply Hsym].
Defined.

(** ** The optimisation criterion *)

Section ClosureFacts.

Context {R : Type} `{Scalar R}.
Implicit Types (multi_layer_encoder : MultiLayerEncoder (Tensor R)).
Implicit Types (content_loss style_loss : MultiLayerLoss R).
Implicit Types (content_layers style_layers : list string) (image : Tensor R).

(** [forward] returns only for a request that names existing layers, at
    least one. *)
Lemma forward_Ok_inv {T} (self : MultiLayerEncoder T) (image : T) layer_cfgs encs :
  forward self image layer_cfgs = Ok encs →
  concat layer_cfgs ≠ [] ∧ ∀ l, l ∈ concat layer_cfgs → l ∈ children_names self.
Proof.
  intros Hok. split.
  - intros Hnil. unfold forward, forward_traced in Hok.
    by rewrite (_find_deepest_layer_empty self layer_cfgs Hnil) in Hok.
  - apply Forall_forall.
    destruct (decide (Forall (λ l, l ∈ children_names self) (concat layer_cfgs)))
      as [Hall|Hmiss]; [done|].
    apply not_Forall_Exists in Hmiss; [|apply _].
    apply Exists_exists in Hmiss as (l & Hl & Hm).
    destruct (forward_unknown_layer self image layer_cfgs) as (l' & _ & _ & Hfw & _);
      [by exists l|].
    unfold forward in Hok. by rewrite Hfw in Hok.
Qed.

Lemma forward_single_collection {T} (self : MultiLayerEncoder T) (image : T) layers :
  NoDup (children_names self) → layers ≠ [] →
  (∀ l, l ∈ layers → l ∈ children_names self) →
  forward self image [layers] = Ok [activation self image <$> layers].
Proof.
  intros Hnd Hne Hall.
  destruct (forward_traced_ok self image [layers] Hnd) as (d & k & _ & _ & _ & _ & Hfw).
  - cbn. by rewrite app_nil_r.
  - cbn. by rewrite app_nil_r.
  - unfold forward. by rewrite Hfw.
Qed.

(** What [closure] computes when the requested layers exist. *)
Lemma closure_ok multi_layer_encoder content_loss style_loss
    content_layers style_layers image :
  NoDup (children_names multi_layer_encoder) →
  content_layers ++ style_layers ≠ [] →
  (∀ l, l ∈ content_layers ++ style_layers → l ∈ children_names multi_layer_encoder) →
  closure multi_layer_encoder content_loss style_loss content_layers style_layers image
  = (content_score ← (loss_forward (activation multi_layer_encoder image <$> content_layers)
                                   content_loss).1;
     style_score ← (loss_forward (activation multi_layer_encoder image <$> style_layers)
                                 style_loss).1;
     Ok (sadd content_score style_score)).
Proof.
  intros Hnd Hne Hall.
  destruct (forward_traced_ok multi_layer_encoder image [content_layers; style_layers] Hnd)
    as (d & k & _ & _ & _ & _ & Hfw).
  - cbn. by rewrite app_nil_r.
  - cbn. by rewrite app_nil_r.
  - unfold closure, forward. by rewrite Hfw.
Qed.

(** C8.  When the content loss and the style loss each return a score on
    the encodings of the candidate image (the encoder's layer names
    being distinct), [closure] returns, as the value to optimise, the
    content score plus the style score. *)
Theorem closure_is_content_plus_style multi_layer_encoder content_loss style_loss
    content_layers style_layers image content_encs style_encs content_score style_score :
  NoDup (children_names multi_layer_encoder) →
  forward multi_layer_encoder image [content_layers] = Ok [content_encs] →
  forward multi_layer_encoder image [style_layers] = Ok [style_encs] →
  (loss_forward content_encs content_loss).1 = Ok content_score →
  (loss_forward style_encs style_loss).1 = Ok style_score →
  closure multi_layer_encoder content_loss style_loss content_layers style_layers image
  = Ok (sadd content_score style_score).
Proof.
  intros Hnd Hc Hs Hcs Hss.
  destruct (forward_Ok_inv _ _ _ _ Hc) as [Hcne Hcall].
  destruct (forward_Ok_inv _ _ _ _ Hs) as [Hsne Hsall].
  cbn in Hcne, Hcall, Hsne, Hsall. rewrite app_nil_r in Hcne, Hcall, Hsne, Hsall.
  rewrite forward_single_collection in Hc by done. injection Hc as <-.
  rewrite forward_single_collection in Hs by done. injection Hs as <-.
  rewrite closure_ok.
  - rewrite Hcs. cbn [mbind result_bind]. by rewrite Hss.
  - done.
  - by destruct content_layers.
  - intros l Hl. apply elem_of_app in Hl as [Hl|Hl]; auto.
Qed.

(** A loss scores the very encodings it stores as targets with zero,
    whenever each layer's score of an encoding against itself is zero. *)
Lemma loss_forward_own_targets `{!ScalarLaws R} cls w (encs : list (Tensor R)) :
  encs ≠ [] →
  (∀ enc, enc ∈ encs → calculate_score cls enc enc = Ok szero) →
  (loss_forward encs (set_target_encs encs (MultiLayerLoss_init cls w)).2).1 = Ok szero.
Proof.
  intros Hne Hzero.
  destruct (set_target_encs_spec encs (MultiLayerLoss_init cls w))
    as (self' & Hset & Hcls & Hw & Hnum & Htargets).
  rewrite Hset. cbn [snd].
  rewrite loss_forward_matching by done. rewrite Htargets. cbn [fst mbind result_bind].
  rewrite (rmap_ok _ (λ _, szero)).
  - cbn [mbind result_bind]. unfold mean.
    rewrite decide_False by (rewrite length_fmap, length_zip, Nat.min_id; by destruct encs).
    cbn [mbind result_bind]. rewrite py_sum_zeros by apply sadd_zero_l.
    rewrite length_fmap, length_zip, Nat.min_id.
    destruct encs as [|enc encs']; [done|]. cbn [length].
    by rewrite sdiv_zero_l, smul_zero_l.
  - intros [a b] Hab. apply list_elem_of_lookup in Hab as [i Hi].
    apply lookup_zip_with_Some in Hi as (a' & b' & [= <- <-] & Ha & Hb).
    assert (a = b) as <- by congruence.
    rewrite Hcls. cbn. apply Hzero. by eapply list_elem_of_lookup_2.
Qed.

(** C5, as amended.  With exact arithmetic, an encoder with distinct
    layer names, existing content and style layers (at least one of
    each) and an image whose requested encodings are non-empty tensors
    (of rank three or more at the style layers): after the set-up with
    that image as content and as style target, scoring that image yields
    exactly zero. *)
Theorem same_image_scores_zero `{!ScalarLaws R} multi_layer_encoder content_layers
    style_layers image content_weight style_weight :
  NoDup (children_names multi_layer_encoder) →
  content_layers ≠ [] → style_layers ≠ [] →
  (∀ l, l ∈ content_layers ++ style_layers → l ∈ children_names multi_layer_encoder) →
  (∀ l, l ∈ content_layers ++ style_layers →
     0 < numel (activation multi_layer_encoder image l)) →
  (∀ l, l ∈ style_layers → 3 ≤ length (size (activation multi_layer_encoder image l))) →
  ∃ trimmed content_loss style_loss,
    nst_setup multi_layer_encoder content_layers style_layers image image
              content_weight style_weight
    = Ok (trimmed, content_loss, style_loss) ∧
    closure trimmed content_loss style_loss content_layers style_layers image = Ok szero.
Proof.
  intros Hnd Hcne Hsne Hall Hpos Hrank.
  destruct (_find_deepest_layer_ok multi_layer_encoder [content_layers; style_layers])
    as (d & i & Hfind & _ & Hi & Hmax).
  { cbn. rewrite app_nil_r. by destruct content_layers. }
  { cbn. by rewrite app_nil_r. }
  pose proof (trim_take _ _ _ _ Hfind Hi) as Htrim.
  assert (∀ image layer_cfgs',
            (∀ l, l ∈ concat layer_cfgs' → l ∈ concat [content_layers; style_layers]) →
            forward (take (S i) multi_layer_encoder) image layer_cfgs'
            = forward multi_layer_encoder image layer_cfgs') as Hfw.
  { intros image' layer_cfgs' Hsub. apply forward_take; [done|].
    intros l Hl. by apply Hmax, Hsub. }
  set (trimmed := take (S i) multi_layer_encoder) in *.
  set (act := activation multi_layer_encoder image).
  assert (forward trimmed image [content_layers] = Ok [act <$> content_layers]) as Hfc.
  { rewrite Hfw.
    - apply forward_single_collection; [done..|]. intros l Hl. apply Hall. set_solver.
    - cbn. rewrite !app_nil_r. intros l Hl. set_solver. }
  assert (forward trimmed image [style_layers] = Ok [act <$> style_layers]) as Hfs.
  { rewrite Hfw.
    - apply forward_single_collection; [done..|]. intros l Hl. apply Hall. set_solver.
    - cbn. rewrite !app_nil_r. intros l Hl. set_solver. }
  assert (forward trimmed image [content_layers; style_layers]
          = Ok [act <$> content_layers; act <$> style_layers]) as Hfb.
  { rewrite Hfw by done.
    destruct (forward_traced_ok multi_layer_encoder image [content_layers; style_layers] Hnd)
      as (d' & k' & _ & _ & _ & _ & Hboth).
    - cbn. rewrite app_nil_r. by destruct content_layers.
    - cbn. by rewrite app_nil_r.
    - unfold forward. by rewrite Hboth. }
  eexists trimmed, _, _. split.
  - unfold nst_setup. rewrite Htrim. cbn [mbind result_bind].
    rewrite Hfc. cbn [mbind result_bind]. rewrite Hfs. cbn [mbind result_bind]. reflexivity.
  - assert ((loss_forward (act <$> content_layers)
               (set_target_encs (act <$> content_layers)
                  (MultiLayerLoss_init ContentLoss content_weight)).2).1 = Ok szero) as Hc0.
    { apply loss_forward_own_targets.
      - intros Hnil. by apply fmap_nil_inv in Hnil.
      - intros enc Henc. apply list_elem_of_fmap in Henc as (l & -> & Hl).
        apply mse_loss_self. apply Hpos. set_solver. }
    assert ((loss_forward (act <$> style_layers)
               (set_target_encs (act <$> style_layers)
                  (MultiLayerLoss_init StyleLoss style_weight)).2).1 = Ok szero) as Hs0.
    { apply loss_forward_own_targets.
      - intros Hnil. by apply fmap_nil_inv in Hnil.
      - intros enc Henc. apply list_elem_of_fmap in Henc as (l & -> & Hl).
        apply gram_loss_self; [by apply Hrank|]. apply Hpos. set_solver. }
    unfold closure. rewrite Hfb. cbn [mbind result_bind].
    rewrite Hc0. cbn [mbind result_bind]. rewrite Hs0. cbn [mbind result_bind].
    by rewrite sadd_zero_l.
Qed.

End ClosureFacts.

Lemma demo_tensor_encoder_NoDup : NoDup (children_names demo_tensor_encoder).
Proof. apply (bool_decide_unpack _). by vm_compute. Defined.

Lemma demo_layers_exist :
  ∀ l, l ∈ demo_content_layers ++ demo_style_layers → l ∈ children_names demo_tensor_encoder.
Proof. apply Forall_forall. apply (bool_decide_unpack _). by vm_compute. Defined.

Lemma demo_encodings_nonempty :
  ∀ l, l ∈ demo_content_layers ++ demo_style_layers →
    0 < numel (activation demo_tensor_encoder demo_tensor l).
Proof. apply Forall_forall. repeat constructor; vm_compute; lia. Defined.

Lemma demo_encodings_rank :
  ∀ l, l ∈ demo_style_layers →
    3 ≤ length (size (activation demo_tensor_encoder demo_tensor l)).
Proof. apply Forall_forall. repeat constructor; vm_compute; lia. Defined.

Lemma closure_is_content_plus_style_witness :
  ∃ content_score style_score,
    (loss_forward (activation demo_tensor_encoder demo_candidate <$> demo_content_layers)
                  demo_content_loss).1 = Ok content_score ∧
    (loss_forward (activation demo_tensor_encoder demo_candidate <$> demo_style_layers)
                  demo_style_loss).1 = Ok style_score ∧
    closure demo_tensor_encoder demo_content_loss demo_style_loss
            demo_content_layers demo_style_layers demo_candidate
    = Ok (sadd content_score style_score).
Proof.
  eexists _, _. split; [|split]; cycle 2.
  - eapply (closure_is_content_plus_style demo_tensor_encoder).
    + exact demo_tensor_encoder_NoDup.
    + apply forward_single_collection; [exact demo_tensor_encoder_NoDup|discriminate|].
      intros l Hl. apply demo_layers_exist. apply elem_of_app. by left.
    + apply forward_single_collection; [exact demo_tensor_encoder_NoDup|discriminate|].
      intros l Hl. apply demo_layers_exist. apply elem_of_app. by right.
    + vm_compute. reflexivity.
    + vm_compute. reflexivity.
  - vm_compute. reflexivity.
  - vm_compute. reflexivity.
Defined.

Lemma same_image_scores_zero_witness :
  ∃ trimmed content_loss style_loss,
    nst_setup demo_tensor_encoder demo_content_layers demo_style_layers
              demo_tensor demo_tensor (Q2Qc 1) (Q2Qc 1000)
    = Ok (trimmed, content_loss, style_loss) ∧
    closure trimmed content_loss style_loss demo_content_layers demo_style_layers demo_tensor
    = Ok (Q2Qc 0).
Proof.
  change (Q2Qc 0) with (szero (R:=Qc)).
  apply (same_image_scores_zero demo_tensor_encoder demo_content_layers demo_style_layers
           demo_tensor (Q2Qc 1) (Q2Qc 1000)).
  - exact demo_tensor_encoder_NoDup.
  - discriminate.
  - discriminate.
  - exact demo_layers_exist.
  - exact demo_encodings_nonempty.
  - exact demo_encodings_rank.
Defined.

(** C5 as stated fails: for this encoder and this image, the set-up with
    the image as both targets returns, and the score of the image is
    zero, not a value different from zero. *)
Lemma same_image_score_is_not_nonzero :
  ¬ (∀ (image : Tensor Qc) trimmed content_loss style_loss score,
       nst_setup demo_tensor_encoder demo_content_layers demo_style_layers
                 image image (Q2Qc 1) (Q2Qc 1000)
       = Ok (trimmed, content_loss, style_loss) →
       closure trimmed content_loss style_loss demo_content_layers demo_style_layers image
       = Ok score →
       score ≠ Q2Qc 0).
Proof.
  intros Hclaim.
  assert (∃ trimmed content_loss style_loss,
            nst_setup demo_tensor_encoder demo_content_layers demo_style_layers
                      demo_tensor demo_tensor (Q2Qc 1) (Q2Qc 1000)
            = Ok (trimmed, content_loss, style_loss) ∧
            closure trimmed content_loss style_loss demo_content_layers demo_style_layers
                    demo_tensor = Ok (Q2Qc 0))
    as (trimmed & content_loss & style_loss & Hsetup & Hscore).
  { eexists _, _, _. split.
    - vm_compute. reflexivity.
    - vm_compute. reflexivity. }
  exact (Hclaim demo_tensor trimmed content_loss style_loss _ Hsetup Hscore eq_refl).
Qed.

(** ** The image pyramid *)

Module PyramidFacts.
Import Pyramid.

Section Scheduler.

Context {Image Targets : Type}.
Context (resize_image : PyramidLevel → Image → Image).
Context (resize_targets : PyramidLevel → Targets → Targets).
Context (optim_step : Targets → Image → Image).

Lemma run_levels_events i levels targets image :
  (run_levels resize_image resize_targets optim_step i levels targets image).1
  = schedule i levels.
Proof.
  revert i targets image. induction levels as [|level rest IH]; intros i targets image.
  - done.
  - cbn [run_levels schedule].
    specialize (IH (S i) (resize_targets level targets)
                   (Nat.iter (num_steps level) (optim_step (resize_targets level targets))
                             (resize_image level image))).
    destruct (run_levels _ _ _ (S i) rest _ _) as [events output].
    cbn in *. by rewrite IH.
Qed.

End Scheduler.

Lemma entered_steps n i size events :
  entered (replicate n (OptimStep i size) ++ events) = entered events.
Proof. induction n as [|n IH]; [done|]. cbn. exact IH. Qed.

Lemma entered_schedule i levels : entered (schedule i levels) = edge_size <$> levels.
Proof.
  revert i. induction levels as [|level rest IH]; intros i; [done|].
  cbn [schedule]. unfold entered at 1. cbn [omap list_omap].
  fold (entered (replicate (num_steps level) (OptimStep i (edge_size level))
                   ++ schedule (S i) rest)).
  rewrite entered_steps, IH. done.
Qed.

Lemma filter_replicate_length {A} (f : A → bool) n x :
  length (List.filter f (replicate n x)) = if f x then n else 0.
Proof.
  induction n as [|n IH]; cbn; [by destruct (f x)|].
  destruct (f x) eqn:Hf; cbn; [by rewrite IH|done].
Qed.

Lemma steps_at_below j i levels : j < i → steps_at j (schedule i levels) = 0.
Proof.
  revert i. induction levels as [|level rest IH]; intros i Hlt; [done|].
  unfold steps_at in *. cbn [schedule List.filter].
  rewrite List.filter_app, length_app, filter_replicate_length.
  rewrite bool_decide_eq_false_2 by lia. rewrite IH by lia. done.
Qed.

Lemma steps_at_schedule k levels i level :
  levels !! i = Some level → steps_at (k + i) (schedule k levels) = num_steps level.
Proof.
  revert k i. induction levels as [|level' rest IH]; intros k i; [done|].
  unfold steps_at in *. cbn [schedule List.filter].
  rewrite List.filter_app, length_app, filter_replicate_length.
  destruct i as [|i]; cbn [lookup list_lookup].
  - intros [= ->]. rewrite bool_decide_eq_true_2 by lia.
    pose proof (steps_at_below (k + 0) (S k) rest ltac:(lia)) as Hz.
    unfold steps_at in Hz. rewrite Hz. lia.
  - intros Hi. rewrite bool_decide_eq_false_2 by lia.
    replace (k + S i) with (S k + i) by lia. by rewrite (IH (S k) i).
Qed.

Lemma total_steps_schedule i levels :
  total_steps (schedule i levels) = sum_list (num_steps <$> levels).
Proof.
  revert i. induction levels as [|level rest IH]; intros i; [done|].
  unfold total_steps in *. cbn [schedule List.filter].
  rewrite List.filter_app, length_app, filter_replicate_length, IH. done.
Qed.

Lemma per_level_length {A} n (s : Setting A) l : per_level n s = Some l → length l = n.
Proof.
  destruct s as [a|l']; cbn.
  - intros [= <-]. apply length_replicate.
  - case_decide; [|done]. by intros [= <-].
Qed.

(** The levels are built in the order of the edge sizes. *)
Lemma ImagePyramid_edge_sizes edge_sizes steps edge pyramid :
  ImagePyramid edge_sizes steps edge = Some pyramid →
  edge_size <$> pyramid = edge_sizes.
Proof.
  unfold ImagePyramid.
  destruct (per_level _ steps) as [ns|] eqn:Hns; [|done].
  destruct (per_level _ edge) as [es|] eqn:Hes; [|done].
  cbn. intros [= <-].
  apply per_level_length in Hns, Hes.
  revert ns es Hns Hes. induction edge_sizes as [|size sizes IH]; intros ns es Hns Hes.
  - by destruct ns.
  - destruct ns as [|n ns]; [done|]. destruct es as [|e es]; [done|].
    cbn. f_equal. apply IH; cbn in *; lia.
Qed.


End PyramidFacts.



(** ** More on the multi-layer encoder *)

Section EncoderMore.

Context {T : Type}.
Implicit Types (self : MultiLayerEncoder T) (image : T).
Implicit Types (layer_cfgs : list (list string)) (layers : list string).

(** The three ways a request can go. *)
Lemma request_cases self layer_cfgs :
  concat layer_cfgs = []
  ∨ (concat layer_cfgs ≠ [] ∧ ∀ l, l ∈ concat layer_cfgs → l ∈ children_names self)
  ∨ (∃ l, l ∈ concat layer_cfgs ∧ l ∉ children_names self).
Proof.
  destruct (decide (concat layer_cfgs = [])) as [Hnil|Hne]; [by left|right].
  destruct (decide (Forall (λ l, l ∈ children_names self) (concat layer_cfgs)))
    as [Hall|Hmiss].
  - left. split; [done|]. by apply Forall_forall.
  - right. apply not_Forall_Exists in Hmiss; [|apply _].
    apply Exists_exists in Hmiss as (l & Hl & Hm). by exists l.
Qed.

Lemma forward_empty self image layer_cfgs :
  concat layer_cfgs = [] → forward_traced self image layer_cfgs = ([], Raise IndexError).
Proof.
  intros Hnil. unfold forward_traced.
  by rewrite (_find_deepest_layer_empty self layer_cfgs Hnil).
Qed.

Lemma trim_unknown_layer self layer_cfgs :
  (∃ l, l ∈ concat layer_cfgs ∧ l ∉ children_names self) →
  ∃ l, l ∈ concat layer_cfgs ∧ (l ∉ children_names self) ∧
    trim self layer_cfgs = Raise (ValueError (missing_msg l)).
Proof.
  intros Hmiss.
  destruct (_find_deepest_layer_missing self layer_cfgs Hmiss) as (l & Hl & Hm & Hfind).
  exists l. repeat (split; [done|]). unfold trim. by rewrite Hfind.
Qed.


(** X2.  For an encoder with distinct layer names and collections of
    existing layers, none of them empty: what [forward] returns for the
    [k]-th collection of a family is what it returns for that collection
    requested alone. *)
Theorem forward_joint_is_separate self image layer_cfgs :
  NoDup (children_names self) →
  (∀ layers, layers ∈ layer_cfgs → layers ≠ []) →
  (∀ l, l ∈ concat layer_cfgs → l ∈ children_names self) →
  layer_cfgs ≠ [] →
  ∃ encs_family,
    forward self image layer_cfgs = Ok encs_family ∧
    length encs_family = length layer_cfgs ∧
    ∀ k layers, layer_cfgs !! k = Some layers →
      ∃ encs, forward self image [layers] = Ok [encs] ∧ encs_family !! k = Some encs.
Proof.
  intros Hnd Hnonempty Hall Hne.
  destruct (forward_traced_ok self image layer_cfgs Hnd) as (d & i & _ & _ & _ & _ & Hfw).
  { destruct layer_cfgs as [|layers rest]; [done|].
    specialize (Hnonempty layers ltac:(by left)).
    cbn. by destruct layers. }
  { done. }
  eexists. unfold forward at 1. rewrite Hfw. cbn [snd]. split; [done|].
  split; [by rewrite length_fmap|].
  intros k layers Hk. exists (activation self image <$> layers). split.
  - apply forward_single_collection; [done| |].
    + apply Hnonempty. by eapply list_elem_of_lookup_2.
    + intros l Hl. apply Hall, elem_of_concat. exists layers.
      split; [by eapply list_elem_of_lookup_2|done].
  - by rewrite list_lookup_fmap, Hk.
Qed.

(** The deepest requested layer is the requested layer at the greatest
    position, whatever the order of the request. *)
Lemma _find_deepest_layer_same_set self layer_cfgs layer_cfgs' :
  concat layer_cfgs ≠ [] →
  (∀ l, l ∈ concat layer_cfgs → l ∈ children_names self) →
  (∀ l, l ∈ concat layer_cfgs ↔ l ∈ concat layer_cfgs') →
  ∃ deepest i,
    _find_deepest_layer self layer_cfgs = Ok deepest ∧
    _find_deepest_layer self layer_cfgs' = Ok deepest ∧
    PyStr.find_index deepest (children_names self) = Some i.
Proof.
  intros Hne Hall Hsame.
  assert (concat layer_cfgs' ≠ []) as Hne'.
  { intros Hnil. destruct (concat layer_cfgs) as [|l ?] eqn:Hc; [done|].
    assert (l ∈ concat layer_cfgs') as Hl by (apply Hsame; by left).
    rewrite Hnil in Hl. by apply elem_of_nil in Hl. }
  assert (∀ l, l ∈ concat layer_cfgs' → l ∈ children_names self) as Hall'.
  { intros l Hl. by apply Hall, Hsame. }
  destruct (_find_deepest_layer_ok self layer_cfgs Hne Hall)
    as (d & i & Hd & Hdin & Hi & Hmax).
  destruct (_find_deepest_layer_ok self layer_cfgs' Hne' Hall')
    as (d' & i' & Hd' & Hdin' & Hi' & Hmax').
  exists d, i. split; [done|]. split; [|done].
  destruct (Hmax d') as (j & Hj & Hle); [by apply Hsame|].
  destruct (Hmax' d) as (j' & Hj' & Hle'); [by apply Hsame|].
  assert (i = i') as <- by (simplify_eq; lia).
  apply PyStrFacts.find_index_Some in Hi, Hi'. by simplify_eq.
Qed.


(** X4.  [trim] returns exactly when at least one layer is requested and
    every requested layer exists, and raises an [IndexError] exactly when
    no layer is requested; what it leaves is a prefix of the children that
    still holds every requested layer, its last child being a requested
    layer. *)
Theorem trim_outcome self layer_cfgs :
  (is_Ok (trim self layer_cfgs)
   ↔ concat layer_cfgs ≠ [] ∧ ∀ l, l ∈ concat layer_cfgs → l ∈ children_names self)
  ∧ (trim self layer_cfgs = Raise IndexError ↔ concat layer_cfgs = [])
  ∧ (∀ trimmed, trim self layer_cfgs = Ok trimmed →
       trimmed `prefix_of` self ∧
       (∀ l, l ∈ concat layer_cfgs → l ∈ children_names trimmed) ∧
       ∃ deepest, last (children_names trimmed) = Some deepest ∧
                  deepest ∈ concat layer_cfgs).
Proof.
  destruct (request_cases self layer_cfgs) as [Hnil|[[Hne Hall]|Hmiss]].
  - assert (trim self layer_cfgs = Raise IndexError) as Htrim.
    { unfold trim. by rewrite (_find_deepest_layer_empty self layer_cfgs Hnil). }
    rewrite Htrim, Hnil. split; [|split].
    + split; [by intros [? ?]|by intros [? _]].
    + done.
    + done.
  - destruct (_find_deepest_layer_ok self layer_cfgs Hne Hall)
      as (d & i & Hd & Hdin & Hi & Hmax).
    rewrite (trim_take self layer_cfgs d i Hd Hi). split; [|split].
    + split; [done|]. intros _. by eexists.
    + split; [done|]. intros Hnil. by rewrite Hnil in Hne.
    + intros trimmed [= <-]. split; [apply prefix_take|]. split.
      * intros l Hl. destruct (Hmax l Hl) as (j & Hj & Hle).
        rewrite children_names_take. eapply list_elem_of_lookup_2.
        apply PyStrFacts.find_index_Some. apply find_index_take; [done|lia].
      * exists d. split; [|done]. rewrite children_names_take.
        pose proof (PyStrFacts.find_index_lt _ _ _ Hi) as Hlt.
        apply PyStrFacts.find_index_Some in Hi.
        rewrite last_lookup, length_take, Nat.min_l by lia.
        rewrite lookup_take_lt by (cbn; lia). exact Hi.
  - destruct (trim_unknown_layer self layer_cfgs Hmiss) as (l & Hl & Hm & Htrim).
    rewrite Htrim. split; [|split].
    + split; [by intros [? ?]|]. intros [_ Hall]. exfalso. by apply Hm, Hall.
    + split; [done|]. intros Hnil. rewrite Hnil in Hl. by apply elem_of_nil in Hl.
    + done.
Qed.

(** X5.  Trimming twice is trimming once: for an encoder with distinct
    layer names, [trim] with the same request on the encoder it has left
    leaves that encoder as it is. *)
Theorem trim_idempotent self layer_cfgs trimmed :
  NoDup (children_names self) →
  trim self layer_cfgs = Ok trimmed →
  trim trimmed layer_cfgs = Ok trimmed.
Proof.
  intros Hnd Htrim.
  destruct (request_cases self layer_cfgs) as [Hnil|[[Hne Hall]|Hmiss]].
  - unfold trim in Htrim.
    by rewrite (_find_deepest_layer_empty self layer_cfgs Hnil) in Htrim.
  - destruct (_find_deepest_layer_ok self layer_cfgs Hne Hall)
      as (d & i & Hd & Hdin & Hi & Hmax).
    rewrite (trim_take self layer_cfgs d i Hd Hi) in Htrim. injection Htrim as <-.
    assert (∀ l, l ∈ concat layer_cfgs →
              ∃ j, PyStr.find_index l (children_names (take (S i) self)) = Some j ∧ j ≤ i)
      as Hin.
    { intros l Hl. destruct (Hmax l Hl) as (j & Hj & Hle). exists j.
      split; [|done]. rewrite children_names_take. apply find_index_take; [done|lia]. }
    destruct (_find_deepest_layer_ok (take (S i) self) layer_cfgs Hne)
      as (d' & i' & Hd' & Hdin' & Hi' & Hmax').
    { intros l Hl. destruct (Hin l Hl) as (j & Hj & _).
      eapply list_elem_of_lookup_2. by apply PyStrFacts.find_index_Some. }
    rewrite (trim_take _ layer_cfgs d' i' Hd' Hi'). f_equal.
    destruct (Hin d Hdin) as (j & Hj & _).
    assert (j = i) as ->.
    { rewrite children_names_take in Hj.
      apply PyStrFacts.find_index_Some in Hj. apply lookup_take_Some in Hj as [Hj _].
      apply PyStrFacts.find_index_Some in Hi. by eapply NoDup_lookup. }
    destruct (Hmax' d Hdin) as (j' & Hj' & Hle'). simplify_eq.
    pose proof (PyStrFacts.find_index_lt _ _ _ Hi') as Hlt.
    rewrite children_names_take, length_take in Hlt.
    rewrite take_take. f_equal. lia.
  - destruct (trim_unknown_layer self layer_cfgs Hmiss) as (l & _ & _ & Hraise).
    by rewrite Hraise in Htrim.
Qed.

(** X6.  After [trim], a layer that lay deeper than the deepest requested
    one is gone: for an encoder with distinct layer names, a request for
    it on the trimmed encoder raises the [ValueError] of an unknown
    layer. *)
Theorem trimmed_layer_is_unknown self layer_cfgs trimmed image deepest i l j :
  NoDup (children_names self) →
  trim self layer_cfgs = Ok trimmed →
  _find_deepest_layer self layer_cfgs = Ok deepest →
  PyStr.find_index deepest (children_names self) = Some i →
  PyStr.find_index l (children_names self) = Some j →
  i < j →
  (l ∉ children_names trimmed) ∧
  forward trimmed image [[l]] = Raise (ValueError (missing_msg l)).
Proof.
  intros Hnd Htrim Hd Hi Hj Hlt.
  rewrite (trim_take self layer_cfgs deepest i Hd Hi) in Htrim. injection Htrim as <-.
  assert (l ∉ children_names (take (S i) self)) as Hgone.
  { rewrite children_names_take. intros Hin.
    apply list_elem_of_lookup in Hin as [p Hp].
    apply lookup_take_Some in Hp as [Hp Hpi].
    apply PyStrFacts.find_index_Some in Hj.
    assert (p = j) by by eapply NoDup_lookup. lia. }
  split; [done|].
  destruct (forward_unknown_layer (take (S i) self) image [[l]]) as (l' & Hl' & _ & Hfw & _).
  { exists l. split; [by left|done]. }
  cbn in Hl'. apply list_elem_of_singleton in Hl' as ->.
  unfold forward. by rewrite Hfw.
Qed.

End EncoderMore.


Lemma forward_joint_is_separate_witness :
  ∃ encs_family encs,
    forward demo_encoder 1 [["relu1_1"]; ["conv1_1"; "relu1_1"]] = Ok encs_family ∧
    forward demo_encoder 1 [["conv1_1"; "relu1_1"]] = Ok [encs] ∧
    encs_family !! 1 = Some encs.
Proof.
  destruct (forward_joint_is_separate demo_encoder 1 [["relu1_1"]; ["conv1_1"; "relu1_1"]])
    as (family & Hfw & _ & Hsep).
  - exact demo_encoder_NoDup.
  - apply Forall_forall. repeat constructor; discriminate.
  - apply Forall_forall. apply (bool_decide_unpack _). vm_compute. exact I.
  - discriminate.
  - destruct (Hsep 1 ["conv1_1"; "relu1_1"] eq_refl) as (encs & H1 & H2).
    exists family, encs. split; [exact Hfw|]. split; [exact H1|exact H2].
Defined.


Lemma trim_outcome_witness :
  is_Ok (trim demo_encoder [["relu1_1"]]) ∧ trim demo_encoder [] = Raise IndexError.
Proof.
  split.
  - apply (trim_outcome demo_encoder [["relu1_1"]]). split; [discriminate|].
    apply Forall_forall. apply (bool_decide_unpack _). vm_compute. exact I.
  - apply (trim_outcome demo_encoder []). reflexivity.
Defined.

Lemma trim_idempotent_witness :
  trim (take 2 demo_encoder) [["relu1_1"]] = Ok (take 2 demo_encoder).
Proof.
  apply (trim_idempotent demo_encoder [["relu1_1"]]).
  - exact demo_encoder_NoDup.
  - vm_compute. reflexivity.
Defined.

Lemma trimmed_layer_is_unknown_witness :
  forward (take 2 demo_encoder) 1 [["conv1_2"]]
  = Raise (ValueError "Layer 'conv1_2' is not part of the multi-layer encoder.").
Proof.
  refine (proj2 (trimmed_layer_is_unknown demo_encoder [["relu1_1"]] (take 2 demo_encoder) 1
                   "relu1_1" 1 "conv1_2" 2 demo_encoder_NoDup _ _ _ _ _)).
  - vm_compute. reflexivity.
  - vm_compute. reflexivity.
  - reflexivity.
  - reflexivity.
  - lia.
Defined.

(** ** The VGG encoder *)

Section VGGFacts.

Context {T : Type} (relu : T → T) (torch_normalize : T → T).
Implicit Types (features pre : list (VGGModule T)) (modules : list (string * (T → T))).

Lemma od_set_keys {V} (od : list (string * V)) key value :
  (od_set od key value).*1 = if decide (key ∈ od.*1) then od.*1 else od.*1 ++ [key].
Proof.
  induction od as [|[k v] od IH]; [done|].
  cbn. destruct (decide (k = key)) as [->|Hne].
  - rewrite decide_True by left. done.
  - cbn. rewrite IH. destruct (decide (key ∈ od.*1)) as [Hin|Hout].
    + rewrite decide_True by (by right). done.
    + rewrite decide_False; [done|].
      intros Hin. apply elem_of_cons in Hin as [->|Hin]; done.
Qed.

Lemma od_set_NoDup {V} (od : list (string * V)) key value :
  NoDup od.*1 → NoDup (od_set od key value).*1.
Proof.
  intros Hnd. rewrite od_set_keys. case_decide; [done|].
  apply NoDup_app. split; [done|]. split; [|apply NoDup_singleton].
  intros x Hx Hin. apply list_elem_of_singleton in Hin as ->. done.
Qed.

Lemma od_set_keys_prefix {V} (od : list (string * V)) key value :
  od.*1 `prefix_of` (od_set od key value).*1.
Proof. rewrite od_set_keys. case_decide; [done|]. by apply prefix_app_r. Qed.

Lemma od_set_key_in {V} (od : list (string * V)) key value :
  key ∈ (od_set od key value).*1.
Proof.
  rewrite od_set_keys. case_decide; [done|]. apply elem_of_app. right. by left.
Qed.

Lemma od_set_length {V} (od : list (string * V)) key value :
  length (od_set od key value) ≤ S (length od).
Proof.
  rewrite <- (length_fmap fst (od_set od key value)), od_set_keys.
  case_decide; rewrite ?length_app, length_fmap; cbn; lia.
Qed.

Lemma od_set_head {V} (od : list (string * V)) k0 v0 key value :
  key ≠ k0 → head od = Some (k0, v0) → head (od_set od key value) = Some (k0, v0).
Proof.
  intros Hne. destruct od as [|[k v] od]; [done|].
  cbn. intros [= -> ->]. by rewrite decide_False by done.
Qed.

(** No name the loop assigns is the name of the preprocessing. *)
Lemma block_depth_name_conv b d : block_depth_name "conv" b d ≠ "preprocessing".
Proof. done. Qed.
Lemma block_depth_name_bn b d : block_depth_name "bn" b d ≠ "preprocessing".
Proof. done. Qed.
Lemma block_depth_name_relu b d : block_depth_name "relu" b d ≠ "preprocessing".
Proof. done. Qed.
Lemma pool_name_ne b : pool_name b ≠ "preprocessing".
Proof. done. Qed.

(** The loop returns when every module is of one of the four types. *)
Lemma vgg_loop_ok features block depth modules v0 :
  Forall (λ m, is_other m = false) features →
  NoDup modules.*1 →
  head modules = Some ("preprocessing", v0) →
  ∃ enc,
    vgg_loop relu features block depth modules = Ok enc ∧
    NoDup enc.*1 ∧
    head enc = Some ("preprocessing", v0) ∧
    modules.*1 `prefix_of` enc.*1 ∧
    length enc ≤ length modules + length features.
Proof.
  intros Hall. revert block depth modules.
  induction features as [|m rest IH]; intros block depth modules Hnd Hhead.
  - exists modules. cbn. repeat (split; [done|]). lia.
  - apply Forall_cons in Hall as [Hm Hall]. specialize (IH Hall).
    destruct m as [f|f|inplace|f|ty]; [| | | |done]; cbn [vgg_loop].
    all: match goal with
         | |- context [vgg_loop _ _ ?b ?d (od_set ?mods ?key ?value)] =>
             destruct (IH b d (od_set mods key value)) as (enc & -> & Hnd' & Hh & Hpre & Hlen);
               [by apply od_set_NoDup|by apply od_set_head|];
               exists enc; repeat (split; [done|]);
               split; [by etrans; [apply od_set_keys_prefix|]|];
               pose proof (od_set_length mods key value); cbn; lia
         end.
Qed.

(** The loop raises at the first module of another type. *)
Lemma vgg_loop_raises features block depth modules k type_repr :
  features !! k = Some (OtherModule type_repr) →
  (∀ j m, j < k → features !! j = Some m → is_other m = false) →
  vgg_loop relu features block depth modules
  = Raise (RuntimeError ("Type " +:+ type_repr +:+ " is not part of the VGG architecture.")).
Proof.
  revert features block depth modules.
  induction k as [|k IH]; intros features block depth modules Hk Hbefore.
  - destruct features as [|m rest]; [done|]. cbn in Hk. by injection Hk as ->.
  - destruct features as [|m rest]; [done|]. cbn in Hk.
    pose proof (Hbefore 0 m ltac:(lia) eq_refl) as Hm.
    assert (∀ j m', j < k → rest !! j = Some m' → is_other m' = false) as Hrest.
    { intros j m' Hj Hm'. by apply (Hbefore (S j) m' ltac:(lia)). }
    destruct m; [| | | |done]; cbn [vgg_loop]; by apply IH.
Qed.

Lemma pools_snoc pre m : pools (pre ++ [m]) = pools pre + (if is_pool m then 1 else 0).
Proof.
  unfold pools. rewrite List.filter_app, length_app. cbn. by destruct (is_pool m).
Qed.

Lemma relus_since_snoc pre m :
  relus_since (pre ++ [m])
  = if is_pool m then 0 else relus_since pre + (if is_relu m then 1 else 0).
Proof.
  unfold relus_since. rewrite reverse_snoc. cbn.
  destruct (is_pool m); [done|]. cbn. destruct (is_relu m); cbn; lia.
Qed.

Lemma layer_name_app pre m rest :
  layer_name (pre ++ m :: rest) (length pre)
  = match m with
    | Conv2d _ => Some (block_depth_name "conv" (1 + pools pre) (1 + relus_since pre))
    | BatchNorm2d _ => Some (block_depth_name "bn" (1 + pools pre) (1 + relus_since pre))
    | ReLU _ => Some (block_depth_name "relu" (1 + pools pre) (1 + relus_since pre))
    | MaxPool2d _ => Some (pool_name (1 + pools pre))
    | OtherModule _ => None
    end.
Proof.
  unfold layer_name, pools_before, relus_since_pool.
  rewrite take_app_length, list_lookup_middle by done. by destruct m.
Qed.

(** Every name the counts give is a name of the encoder. *)
Lemma vgg_loop_names pre features block depth modules enc :
  block = 1 + pools pre →
  depth = 1 + relus_since pre →
  vgg_loop relu features block depth modules = Ok enc →
  (∀ name, name ∈ modules.*1 → name ∈ enc.*1) ∧
  ∀ k name, layer_name (pre ++ features) (length pre + k) = Some name → name ∈ enc.*1.
Proof.
  revert pre block depth modules.
  induction features as [|m rest IH]; intros pre block depth modules Hb Hd Hloop.
  - injection Hloop as <-. split; [done|].
    intros k name. unfold layer_name. rewrite app_nil_r.
    by rewrite lookup_ge_None_2 by lia.
  - assert (∀ b' d' key value,
              b' = 1 + pools (pre ++ [m]) → d' = 1 + relus_since (pre ++ [m]) →
              layer_name (pre ++ m :: rest) (length pre) = Some key →
              vgg_loop relu rest b' d' (od_set modules key value) = Ok enc →
              (∀ name, name ∈ modules.*1 → name ∈ enc.*1) ∧
              ∀ k name, layer_name (pre ++ m :: rest) (length pre + k) = Some name →
                        name ∈ enc.*1) as Hstep.
    { intros b' d' key value Hb' Hd' Hkey Hrest.
      destruct (IH (pre ++ [m]) b' d' (od_set modules key value) Hb' Hd' Hrest)
        as [Hkeep Hnames].
      rewrite <- app_assoc in Hnames. cbn in Hnames.
      split.
      - intros name Hname. apply Hkeep.
        by eapply elem_of_prefix; [|apply od_set_keys_prefix].
      - intros [|k] name Hname.
        + rewrite Nat.add_0_r in Hname. rewrite Hkey in Hname. injection Hname as <-.
          apply Hkeep, od_set_key_in.
        + apply (Hnames k). rewrite length_app. cbn.
          by replace (length pre + 1 + k) with (length pre + S k) by lia. }
    pose proof (layer_name_app pre m rest) as Hname.
    pose proof (pools_snoc pre m) as Hp. pose proof (relus_since_snoc pre m) as Hr.
    destruct m as [f|f|inplace|f|ty]; [| | | |done]; cbn [vgg_loop] in Hloop;
      cbn in Hp, Hr; subst block depth;
      (eapply Hstep; [| |exact Hname|exact Hloop]; lia).
Qed.

(** X7.  [VGGMultiLayerEncoder.__init__] returns exactly when every
    feature module is a convolution, a batch normalisation, a ReLU or a
    max pooling; the encoder it builds has distinct layer names, the
    preprocessing as its first child and at most one child per module
    besides.  At the first module of another type it raises the
    [RuntimeError] that names this type. *)
Theorem VGGMultiLayerEncoder_init_outcome features :
  (is_Ok (VGGMultiLayerEncoder_init relu torch_normalize features)
   ↔ Forall (λ m, is_other m = false) features)
  ∧ (∀ enc, VGGMultiLayerEncoder_init relu torch_normalize features = Ok enc →
       NoDup (children_names enc) ∧
       head enc = Some ("preprocessing", torch_normalize) ∧
       length enc ≤ 1 + length features)
  ∧ (∀ k type_repr,
       features !! k = Some (OtherModule type_repr) →
       (∀ j m, j < k → features !! j = Some m → is_other m = false) →
       VGGMultiLayerEncoder_init relu torch_normalize features
       = Raise (RuntimeError
                  ("Type " +:+ type_repr +:+ " is not part of the VGG architecture."))).
Proof.
  assert (∀ k type_repr,
       features !! k = Some (OtherModule type_repr) →
       (∀ j m, j < k → features !! j = Some m → is_other m = false) →
       VGGMultiLayerEncoder_init relu torch_normalize features
       = Raise (RuntimeError
                  ("Type " +:+ type_repr +:+ " is not part of the VGG architecture.")))
    as Hraise.
  { intros k ty Hk Hbefore. by eapply vgg_loop_raises. }
  assert (Forall (λ m, is_other m = false) features →
          ∃ enc, VGGMultiLayerEncoder_init relu torch_normalize features = Ok enc ∧
                 NoDup (children_names enc) ∧
                 head enc = Some ("preprocessing", torch_normalize) ∧
                 length enc ≤ 1 + length features) as Hok.
  { intros Hall.
    destruct (vgg_loop_ok features 1 1 [("preprocessing", torch_normalize)] torch_normalize Hall)
      as (enc & Hloop & Hnd & Hhead & _ & Hlen).
    - apply NoDup_singleton.
    - done.
    - exists enc. by repeat (split; [done|]). }
  assert (is_Ok (VGGMultiLayerEncoder_init relu torch_normalize features) →
          Forall (λ m, is_other m = false) features) as Hinv.
  { intros [enc Henc].
    destruct (decide (Forall (λ m, is_other m = false) features)) as [Hall|Hnot]; [done|].
    exfalso. apply not_Forall_Exists in Hnot; [|apply _].
    assert (∃ k ty, features !! k = Some (OtherModule ty) ∧
                    ∀ j m, j < k → features !! j = Some m → is_other m = false)
      as (k & ty & Hk & Hbefore).
    { clear -Hnot. induction features as [|m rest IH]; [by apply Exists_nil in Hnot|].
      destruct (is_other m) eqn:Hm.
      - destruct m; try done. exists 0. eexists. split; [done|]. intros; lia.
      - apply Exists_cons in Hnot as [Hnot|Hnot]; [done|].
        destruct (IH Hnot) as (k & ty & Hk & Hbefore).
        exists (S k), ty. split; [done|].
        intros [|j] m' Hj Hm'; [by injection Hm' as <-|].
        apply (Hbefore j); [lia|done]. }
    by rewrite (Hraise k ty Hk Hbefore) in Henc. }
  split; [split|split].
  - exact Hinv.
  - intros Hall. destruct (Hok Hall) as (enc & -> & _). by eexists.
  - intros enc Henc.
    destruct (Hok (Hinv (ex_intro _ enc Henc))) as (enc' & Henc' & Hrest).
    rewrite Henc in Henc'. injection Henc' as <-. exact Hrest.
  - exact Hraise.
Qed.


(** X9.  For the feature stage of VGG19, whatever its modules compute: the
    encoder has 38 children, from [preprocessing] to [pool5]; the layers
    of the notebook exist in it, the deepest being [relu5_1]; [trim] for
    them keeps the first 31 children; and on the trimmed encoder
    [forward] for them returns one content encoding and five style
    encodings. *)
Theorem vgg19_notebook_layers (conv : nat → nat → T → T) (pool : nat → T → T) image :
  ∃ enc content_encs style_encs,
    VGGMultiLayerEncoder_init relu torch_normalize (vgg19_features conv pool) = Ok enc ∧
    children_names enc
    = ["preprocessing";
       "conv1_1"; "relu1_1"; "conv1_2"; "relu1_2"; "pool1";
       "conv2_1"; "relu2_1"; "conv2_2"; "relu2_2"; "pool2";
       "conv3_1"; "relu3_1"; "conv3_2"; "relu3_2"; "conv3_3"; "relu3_3";
       "conv3_4"; "relu3_4"; "pool3";
       "conv4_1"; "relu4_1"; "conv4_2"; "relu4_2"; "conv4_3"; "relu4_3";
       "conv4_4"; "relu4_4"; "pool4";
       "conv5_1"; "relu5_1"; "conv5_2"; "relu5_2"; "conv5_3"; "relu5_3";
       "conv5_4"; "relu5_4"; "pool5"] ∧
    _find_deepest_layer enc [content_layers; style_layers] = Ok "relu5_1" ∧
    trim enc [content_layers; style_layers] = Ok (take 31 enc) ∧
    forward (take 31 enc) image [content_layers; style_layers]
    = Ok [content_encs; style_encs] ∧
    length content_encs = 1 ∧ length style_encs = 5.
Proof.
  eexists _, _, _. split; [vm_compute; reflexivity|].
  split; [vm_compute; reflexivity|].
  split; [vm_compute; reflexivity|].
  split; [vm_compute; reflexivity|].
  split; [vm_compute; reflexivity|].
  split; reflexivity.
Qed.

End VGGFacts.

Lemma VGGMultiLayerEncoder_init_outcome_witness :
  is_Ok (VGGMultiLayerEncoder_init (T:=nat) (λ x, x) S [Conv2d S; ReLU true; MaxPool2d S])
  ∧ VGGMultiLayerEncoder_init (T:=nat) (λ x, x) S
      [Conv2d S; OtherModule "<class 'torch.nn.modules.dropout.Dropout'>"; ReLU true]
    = Raise (RuntimeError
        "Type <class 'torch.nn.modules.dropout.Dropout'> is not part of the VGG architecture.").
Proof.
  split.
  - apply (VGGMultiLayerEncoder_init_outcome (T:=nat) (λ x, x) S). repeat constructor.
  - destruct (VGGMultiLayerEncoder_init_outcome (T:=nat) (λ x, x) S
                [Conv2d S; OtherModule "<class 'torch.nn.modules.dropout.Dropout'>"; ReLU true])
      as (_ & _ & Hraise).
    apply (Hraise 1 "<class 'torch.nn.modules.dropout.Dropout'>"); [reflexivity|].
    intros [|j] m Hj Hm; [by injection Hm as <-|lia].
Defined.


(** ** More on the losses *)

Section LossMore.

Context {R : Type} `{Scalar R}.
Implicit Types (self : MultiLayerLoss R) (input_encs targets : list (Tensor R)).

(** The buffers [set_target_encs] leaves. *)
Lemma set_target_encs_buffers targets self :
  _buffers (set_target_encs targets self).2
  = store (_buffers self) (zip (seq 0 (length targets)) targets).
Proof.
  unfold set_target_encs. unfold bind at 1. cbn.
  change (imap (λ idx enc, (idx, enc)) targets)
    with (imap (λ idx (enc : Tensor R), (0 + idx, enc)) targets).
  rewrite imap_enumerate.
  edestruct (for_each_register (R:=R)) as [units Hreg]. unfold bind at 1. rewrite Hreg. done.
Qed.

(** X10.  [target_encs] returns what the last [set_target_encs] stored,
    in order, whatever the loss held before; [set_target_encs] returns,
    sets the count to the number of targets and keeps the class and the
    score weight, and reading the targets changes nothing. *)
Theorem set_target_encs_round_trip self targets :
  (set_target_encs targets self).1 = Ok () ∧
  target_encs (set_target_encs targets self).2
  = (Ok targets, (set_target_encs targets self).2) ∧
  _numel_target_encs (set_target_encs targets self).2 = length targets ∧
  score_weight (set_target_encs targets self).2 = score_weight self ∧
  loss_class (set_target_encs targets self).2 = loss_class self.
Proof.
  destruct (set_target_encs_spec targets self) as (self' & Hset & Hcls & Hw & Hnum & Hget).
  rewrite Hset. cbn [fst snd]. done.
Qed.

(** X11.  [set_target_encs] never unregisters a buffer: a target stored
    at an index that a later, shorter list of targets does not reach stays
    registered under its name, although [target_encs] no longer returns
    it. *)
Theorem set_target_encs_keeps_stale_buffers self targets1 targets2 idx t :
  length targets2 ≤ idx →
  targets1 !! idx = Some t →
  let self' := (set_target_encs targets2 (set_target_encs targets1 self).2).2 in
  _buffers self' !! _target_enc_name idx = Some t ∧
  (target_encs self').1 = Ok targets2 ∧
  length targets2 < length targets1.
Proof.
  intros Hlen Ht self'. split; [|split].
  - unfold self'. rewrite set_target_encs_buffers.
    rewrite store_lookup_other.
    + rewrite set_target_encs_buffers. by apply (store_lookup _ 0).
    + intros idx' Hidx' Heq. apply _target_enc_name_inj in Heq. lia.
  - unfold self'.
    by destruct (set_target_encs_round_trip (set_target_encs targets1 self).2 targets2)
      as (_ & -> & _).
  - apply lookup_lt_Some in Ht. lia.
Qed.

(** X12.  The base class [MultiLayerLoss] never returns a score: with
    targets stored and as many input encodings (at least one) its
    [forward] raises the [NotImplementedError] of [calculate_score], and
    in no state does it return. *)
Theorem base_loss_never_scores :
  (∀ self input_encs,
     loss_class self = BaseLoss → ¬ is_Ok (loss_forward input_encs self).1)
  ∧ (∀ score_weight targets input_encs,
       length input_encs = length targets → input_encs ≠ [] →
       (loss_forward input_encs
          (set_target_encs targets (MultiLayerLoss_init BaseLoss score_weight)).2).1
       = Raise NotImplementedError).
Proof.
  assert (∀ (self : MultiLayerLoss R) input_encs targets,
            loss_class self = BaseLoss → input_encs ≠ [] →
            length input_encs = _numel_target_encs self →
            (target_encs self).1 = Ok targets →
            (loss_forward input_encs self).1 = Raise NotImplementedError) as Hraise.
  { intros self input_encs targets Hcls Hne Hlen Ht.
    rewrite loss_forward_matching by done. rewrite Ht. cbn [mbind result_bind].
    apply target_encs_length in Ht.
    destruct input_encs as [|input input_encs]; [done|].
    destruct targets as [|target targets]; [cbn in *; lia|].
    rewrite Hcls. done. }
  split.
  - intros self input_encs Hcls [score Hok].
    destruct (loss_forward_Ok_inv _ _ _ Hok) as [Hlen Hne].
    pose proof Hok as Hok'.
    rewrite loss_forward_matching in Hok' by done.
    destruct (target_encs self).1 as [targets|e] eqn:Ht; [|done].
    by rewrite (Hraise self input_encs targets) in Hok.
  - intros w targets input_encs Hlen Hne.
    destruct (set_target_encs_spec targets (MultiLayerLoss_init BaseLoss w))
      as (self' & Hset & Hcls & Hw & Hnum & Hget).
    rewrite Hset. cbn [snd].
    apply (Hraise self' input_encs targets); [done|done|congruence|].
    by rewrite Hget.
Qed.

(** X13.  Scoring an empty list of encodings on a loss that stores no
    targets passes the count check and fails in [mean]: [forward] raises
    a [ZeroDivisionError], not its mismatch error, and leaves the loss as
    it was. *)
Theorem loss_forward_nothing_to_average self :
  _numel_target_encs self = 0 →
  loss_forward [] self = (Raise ZeroDivisionError, self).
Proof.
  intros Hnum. unfold loss_forward, bind, getattr, target_encs. cbn.
  rewrite Hnum. rewrite decide_False by (intros Hne; by apply Hne). cbn.
  unfold mean. rewrite Hnum. cbn. by rewrite decide_True.
Qed.

End LossMore.

Lemma set_target_encs_keeps_stale_buffers_witness :
  _buffers (set_target_encs [scalar_tensor (Q2Qc 5)] demo_loss).2 !! "_target_encs_1"
  = Some (scalar_tensor (Q2Qc 0))
  ∧ (target_encs (set_target_encs [scalar_tensor (Q2Qc 5)] demo_loss).2).1
    = Ok [scalar_tensor (Q2Qc 5)].
Proof.
  destruct (set_target_encs_keeps_stale_buffers
              (MultiLayerLoss_init ContentLoss (Q2Qc 3)) demo_targets
              [scalar_tensor (Q2Qc 5)] 1 (scalar_tensor (Q2Qc 0)))
    as (Hbuf & Hget & _).
  - cbn. lia.
  - reflexivity.
  - split; [exact Hbuf|exact Hget].
Defined.

Lemma base_loss_never_scores_witness :
  (loss_forward demo_inputs
     (set_target_encs demo_targets (MultiLayerLoss_init BaseLoss (Q2Qc 3))).2).1
  = Raise NotImplementedError.
Proof.
  apply (proj2 (base_loss_never_scores (R:=Qc))); [reflexivity|discriminate].
Defined.

Lemma loss_forward_nothing_to_average_witness :
  loss_forward [] (MultiLayerLoss_init StyleLoss (Q2Qc 1000))
  = (Raise ZeroDivisionError, MultiLayerLoss_init StyleLoss (Q2Qc 1000)).
Proof. apply loss_forward_nothing_to_average. reflexivity. Defined.

(** ** More on the criterion *)

Section ClosureMore.

Context {R : Type} `{Scalar R}.
Implicit Types (multi_layer_encoder : MultiLayerEncoder (Tensor R)).
Implicit Types (content_loss style_loss : MultiLayerLoss R).
Implicit Types (content_layers style_layers : list string) (image : Tensor R).

Lemma concat_pair {A} (l1 l2 : list A) : concat [l1; l2] = l1 ++ l2.
Proof. cbn. by rewrite app_nil_r. Qed.

(** X14.  A criterion that is not ready fails in [closure] with the
    mismatch error of the first loss that lacks its targets: for an
    encoder with distinct layer names and existing layers (at least one),
    the content loss is asked first, and the style loss only when the
    content loss has returned a score. *)
Theorem closure_not_ready multi_layer_encoder content_loss style_loss
    content_layers style_layers image :
  NoDup (children_names multi_layer_encoder) →
  content_layers ++ style_layers ≠ [] →
  (∀ l, l ∈ content_layers ++ style_layers → l ∈ children_names multi_layer_encoder) →
  (length content_layers ≠ _numel_target_encs content_loss →
   closure multi_layer_encoder content_loss style_loss content_layers style_layers image
   = Raise (RuntimeError (mismatch_msg (length content_layers)
                                       (_numel_target_encs content_loss))))
  ∧ (is_Ok (loss_forward (activation multi_layer_encoder image <$> content_layers)
                         content_loss).1 →
     length style_layers ≠ _numel_target_encs style_loss →
     closure multi_layer_encoder content_loss style_loss content_layers style_layers image
     = Raise (RuntimeError (mismatch_msg (length style_layers)
                                         (_numel_target_encs style_loss)))).
Proof.
  intros Hnd Hne Hall. rewrite closure_ok by done. split.
  - intros Hlen.
    rewrite <- (length_fmap (activation multi_layer_encoder image)) in Hlen.
    rewrite (loss_forward_mismatch_raises _ _ Hlen). cbn [fst mbind result_bind].
    rewrite length_fmap. reflexivity.
  - intros [score ->] Hlen. cbn [mbind result_bind].
    rewrite <- (length_fmap (activation multi_layer_encoder image)) in Hlen.
    rewrite (loss_forward_mismatch_raises _ _ Hlen). cbn [fst mbind result_bind].
    rewrite length_fmap. reflexivity.
Qed.

(** X15.  The encoder is asked before the losses: when a content or style
    layer does not exist, [closure] raises the [ValueError] of the
    encoder, and when no layer at all is given its [IndexError], whatever
    the state of the two losses. *)
Theorem closure_encoder_errors_first multi_layer_encoder content_loss style_loss
    content_layers style_layers image :
  ((∃ l, l ∈ content_layers ++ style_layers ∧ l ∉ children_names multi_layer_encoder) →
   ∃ l, l ∈ content_layers ++ style_layers ∧ (l ∉ children_names multi_layer_encoder) ∧
     closure multi_layer_encoder content_loss style_loss content_layers style_layers image
     = Raise (ValueError (missing_msg l)))
  ∧ (content_layers ++ style_layers = [] →
     closure multi_layer_encoder content_loss style_loss content_layers style_layers image
     = Raise IndexError).
Proof.
  split.
  - intros Hmiss.
    destruct (forward_unknown_layer multi_layer_encoder image [content_layers; style_layers])
      as (l & Hl & Hm & Hfw & _).
    { by rewrite concat_pair. }
    exists l. rewrite concat_pair in Hl. repeat (split; [done|]).
    unfold closure, forward. by rewrite Hfw.
  - intros Hnil.
    pose proof (forward_empty multi_layer_encoder image [content_layers; style_layers]) as Hfw.
    rewrite concat_pair in Hfw. unfold closure, forward. by rewrite (Hfw Hnil).
Qed.


End ClosureMore.

Lemma closure_not_ready_witness :
  closure demo_tensor_encoder (MultiLayerLoss_init ContentLoss (Q2Qc 1)) demo_style_loss
          demo_content_layers demo_style_layers demo_candidate
  = Raise (RuntimeError
      "The number of given input encodings and stored target encodings does not match: 1 != 0")
  ∧ closure demo_tensor_encoder demo_content_loss (MultiLayerLoss_init StyleLoss (Q2Qc 1))
            demo_content_layers demo_style_layers demo_candidate
  = Raise (RuntimeError
      "The number of given input encodings and stored target encodings does not match: 2 != 0").
Proof.
  split.
  - refine (proj1 (closure_not_ready demo_tensor_encoder _ _ _ _ _
                     demo_tensor_encoder_NoDup _ demo_layers_exist) _);
      [discriminate|cbn; lia].
  - refine (proj2 (closure_not_ready demo_tensor_encoder _ _ _ _ _
                     demo_tensor_encoder_NoDup _ demo_layers_exist) _ _).
    + discriminate.
    + eexists. vm_compute. reflexivity.
    + cbn. lia.
Defined.

Lemma closure_encoder_errors_first_witness :
  closure demo_tensor_encoder demo_content_loss demo_style_loss [] [] demo_candidate
  = Raise IndexError
  ∧ ∃ l, closure demo_tensor_encoder demo_content_loss demo_style_loss
                 ["relu1_1"] ["pool1"] demo_candidate
         = Raise (ValueError (missing_msg l)).
Proof.
  split.
  - apply (closure_encoder_errors_first demo_tensor_encoder). reflexivity.
  - destruct (proj1 (closure_encoder_errors_first demo_tensor_encoder demo_content_loss
                       demo_style_loss ["relu1_1"] ["pool1"] demo_candidate))
      as (l & _ & _ & Hraise).
    + exists "pool1". split; [by right; left|].
      apply (bool_decide_unpack _). vm_compute. exact I.
    + by exists l.
Defined.


(** ** More on the Gram matrix and the layer scores *)

Section GramMore.

Context {R : Type} `{Scalar R}.
Implicit Types (x input target : Tensor R).

Lemma channelwise_gram_matrix_low_rank x normalize :
  length (size x) < 3 → channelwise_gram_matrix x normalize = Raise TorchError.
Proof.
  intros Hrank. unfold channelwise_gram_matrix, flatten.
  by rewrite decide_False by lia.
Qed.

Lemma channelwise_gram_matrix_returns x normalize :
  3 ≤ length (size x) →
  ∃ B C spatial G,
    size x = B :: C :: spatial ∧
    channelwise_gram_matrix x normalize = Ok G ∧ size G = [B; C; C].
Proof.
  intros Hrank.
  destruct (size x) as [|B [|C spatial]] eqn:Hsize; [cbn in Hrank; lia..|].
  assert (spatial ≠ []) as Hsp by (intros ->; cbn in Hrank; lia).
  destruct (channelwise_gram_matrix_spec x B C spatial Hsize Hsp)
    as (xf & G & _ & HG & HGn & HsG & _).
  exists B, C, spatial. destruct normalize; eexists; (split; [done|]); split; done.
Qed.

(** X17.  [channelwise_gram_matrix] returns exactly for tensors of three
    or more dimensions, and then a tensor of size [B, C, C]; for fewer
    dimensions the error is that of [torch.flatten], and [gram_loss]
    fails in the same way when its input or its target has fewer. *)
Theorem channelwise_gram_matrix_outcome x normalize :
  (is_Ok (channelwise_gram_matrix x normalize) ↔ 3 ≤ length (size x))
  ∧ (length (size x) < 3 → channelwise_gram_matrix x normalize = Raise TorchError)
  ∧ (∀ G, channelwise_gram_matrix x normalize = Ok G →
       ∃ B C spatial, size x = B :: C :: spatial ∧ size G = [B; C; C])
  ∧ (∀ target, length (size x) < 3 ∨ length (size target) < 3 →
       gram_loss x target = Raise TorchError).
Proof.
  split; [|split; [|split]].
  - split.
    + intros [G HG]. destruct (decide (3 ≤ length (size x))) as [|Hlow]; [done|].
      rewrite channelwise_gram_matrix_low_rank in HG by lia. done.
    + intros Hrank.
      destruct (channelwise_gram_matrix_returns x normalize Hrank)
        as (B & C & sp & G & _ & HG & _).
      by exists G.
  - apply channelwise_gram_matrix_low_rank.
  - intros G HG. destruct (decide (3 ≤ length (size x))) as [Hrank|Hlow].
    + destruct (channelwise_gram_matrix_returns x normalize Hrank)
        as (B & C & sp & G' & Hsize & HG' & HsG).
      exists B, C, sp. split; [done|]. congruence.
    + rewrite channelwise_gram_matrix_low_rank in HG by lia. done.
  - intros target [Hlow|Hlow]; unfold gram_loss.
    + by rewrite (channelwise_gram_matrix_low_rank x true Hlow).
    + rewrite (channelwise_gram_matrix_low_rank target true Hlow).
      destruct (decide (3 ≤ length (size x))) as [Hrank|Hlow'].
      * destruct (channelwise_gram_matrix_returns x true Hrank)
          as (B & C & sp & G & _ & HG & _).
        by rewrite HG.
      * by rewrite channelwise_gram_matrix_low_rank by lia.
Qed.

(** X18.  The style score does not need the input and the target to have
    one spatial size, the content score does: for encodings of sizes
    [B, C, H, W] and [B, C, H', W'], [gram_loss] returns, while
    [feature_reconstruction_loss] raises the broadcasting error whenever
    the heights (or the widths) differ and neither is 1. *)
Theorem gram_loss_any_spatial_size input target B C h w h' w' :
  size input = [B; C; h; w] →
  size target = [B; C; h'; w'] →
  is_Ok (gram_loss input target)
  ∧ ((h ≠ h' ∧ h ≠ 1 ∧ h' ≠ 1) ∨ (w ≠ w' ∧ w ≠ 1 ∧ w' ≠ 1) →
     feature_reconstruction_loss input target = Raise TorchError).
Proof.
  intros Hi Ht. split.
  - destruct (channelwise_gram_matrix_spec input B C [h; w] Hi ltac:(done))
      as (_ & Gi & _ & _ & HGi & Hsi & _).
    destruct (channelwise_gram_matrix_spec target B C [h'; w'] Ht ltac:(done))
      as (_ & Gt & _ & _ & HGt & Hst & _).
    unfold gram_loss. rewrite HGi, HGt. cbn [mbind result_bind].
    unfold mse_loss. cbn [size div_int]. rewrite Hsi, Hst, broadcast_shapes_diag.
    by eexists.
  - intros Hdiff. unfold feature_reconstruction_loss, mse_loss. rewrite Hi, Ht.
    assert (broadcast_shapes [B; C; h; w] [B; C; h'; w'] = None) as ->; [|done].
    unfold broadcast_shapes. cbn.
    assert (∀ d1 d2, d1 ≠ d2 → d1 ≠ 1 → d2 ≠ 1 → broadcast_dim d1 d2 = None) as Hnone.
    { intros d1 d2 ? ? ?. unfold broadcast_dim. by rewrite !decide_False. }
    destruct Hdiff as [(? & ? & ?)|(? & ? & ?)].
    + destruct (broadcast_dim w w'); cbn; [|done]. by rewrite (Hnone h h').
    + by rewrite (Hnone w w').
Qed.

Lemma broadcast_dim_comm d1 d2 : broadcast_dim d1 d2 = broadcast_dim d2 d1.
Proof.
  unfold broadcast_dim. repeat case_decide; (done || congruence).
Qed.

Lemma broadcast_rev_comm r1 r2 : broadcast_rev r1 r2 = broadcast_rev r2 r1.
Proof.
  revert r2. induction r1 as [|d1 r1 IH]; intros [|d2 r2]; try done.
  cbn. by rewrite broadcast_dim_comm, IH.
Qed.

Lemma mse_loss_comm input target :
  (∀ a b : R, smul (ssub a b) (ssub a b) = smul (ssub b a) (ssub b a)) →
  mse_loss input target = mse_loss target input.
Proof.
  intros Hsq. unfold mse_loss, broadcast_shapes.
  rewrite (broadcast_rev_comm (reverse (size input))).
  destruct (broadcast_rev _ _) as [r|]; cbn; [|done].
  do 3 f_equal. apply list_fmap_ext. intros _ ix _. apply Hsq.
Qed.

(** X19.  With a squared difference that does not depend on the order of
    its operands, the score of every class of loss for one layer is the
    same when input and target are exchanged; for the base class both
    calls raise [NotImplementedError]. *)
Theorem calculate_score_symmetric cls input target :
  (∀ a b : R, smul (ssub a b) (ssub a b) = smul (ssub b a) (ssub b a)) →
  calculate_score cls input target = calculate_score cls target input.
Proof.
  intros Hsq. destruct cls; cbn.
  - done.
  - by apply mse_loss_comm.
  - unfold gram_loss.
    destruct (channelwise_gram_matrix input true) as [Gi|ei] eqn:Hin;
      destruct (channelwise_gram_matrix target true) as [Gt|et] eqn:Htg; cbn.
    + by apply mse_loss_comm.
    + done.
    + done.
    + destruct (decide (3 ≤ length (size input))) as [Hrank|Hlow].
      { destruct (channelwise_gram_matrix_returns input true Hrank)
          as (? & ? & ? & G & _ & HG & _). congruence. }
      destruct (decide (3 ≤ length (size target))) as [Hrank'|Hlow'].
      { destruct (channelwise_gram_matrix_returns target true Hrank')
          as (? & ? & ? & G & _ & HG & _). congruence. }
      rewrite channelwise_gram_matrix_low_rank in Hin, Htg by lia. congruence.
Qed.

End GramMore.

Lemma channelwise_gram_matrix_outcome_witness :
  is_Ok (channelwise_gram_matrix demo_tensor true)
  ∧ gram_loss (tensor_of_list [Q2Qc 1; Q2Qc 2]) demo_tensor = Raise TorchError.
Proof.
  split.
  - apply (channelwise_gram_matrix_outcome demo_tensor true). cbn. lia.
  - apply (channelwise_gram_matrix_outcome (tensor_of_list [Q2Qc 1; Q2Qc 2]) true).
    left. cbn. lia.
Defined.

Lemma gram_loss_any_spatial_size_witness :
  is_Ok (gram_loss demo_tensor (mkTensor [1; 2; 3; 5] (λ _, Q2Qc 1)))
  ∧ feature_reconstruction_loss demo_tensor (mkTensor [1; 2; 3; 5] (λ _, Q2Qc 1))
    = Raise TorchError.
Proof.
  destruct (gram_loss_any_spatial_size demo_tensor (mkTensor [1; 2; 3; 5] (λ _, Q2Qc 1))
              1 2 2 2 3 5 eq_refl eq_refl) as [Hgram Hcontent].
  split; [exact Hgram|]. apply Hcontent. left. lia.
Defined.

Lemma calculate_score_symmetric_witness :
  calculate_score StyleLoss demo_tensor demo_candidate
  = calculate_score StyleLoss demo_candidate demo_tensor.
Proof.
  apply calculate_score_symmetric. intros a b. cbn. ring.
Defined.

(** ** Normalisation *)

Section NormalizeFacts.

Context {R : Type} `{Scalar R}.

Lemma broadcast_dim_1_r d : broadcast_dim d 1 = Some d.
Proof. unfold broadcast_dim. repeat case_decide; (done || congruence). Qed.

Lemma broadcast_dim_diag d : broadcast_dim d d = Some d.
Proof. unfold broadcast_dim. by rewrite decide_True. Qed.

Lemma broadcast_channels B C h w :
  broadcast_shapes [B; C; h; w] [1; C; 1; 1] = Some [B; C; h; w].
Proof.
  unfold broadcast_shapes. cbn.
  by rewrite !broadcast_dim_1_r, broadcast_dim_diag.
Qed.

Lemma expand_index d i : i < d → (if decide (d = 1) then 0 else i) = i.
Proof. intros Hlt. case_decide; lia. Qed.

Lemma view_1_m1_1_1_of_list (values : list R) :
  values ≠ [] →
  ∃ v, view_1_m1_1_1 (tensor_of_list values) = Ok v ∧
       size v = [1; length values; 1; 1] ∧
       ∀ c, item v [0; c; 0; 0] = nth c values szero.
Proof.
  intros Hne. unfold view_1_m1_1_1. cbn [tensor_of_list size].
  rewrite decide_False by (by destruct values).
  eexists. split; [done|]. split; [done|].
  intros c. cbn. f_equal. lia.
Qed.

(** X20.  For a batch of images of size [B, C, H, W] and a mean and a
    standard deviation with one number per channel, [Normalize] keeps the
    size and works channel by channel: each entry becomes the entry
    minus the mean of its channel, divided by the standard deviation of
    its channel. *)
Theorem Normalize_forward_per_channel (mean std : list R) (image : Tensor R) B C h w :
  size image = [B; C; h; w] →
  length mean = C → length std = C → C ≠ 0 →
  ∃ self out,
    Normalize_init mean std = Ok self ∧
    Normalize_forward self image = Ok out ∧
    size out = [B; C; h; w] ∧
    ∀ b c i j, b < B → c < C → i < h → j < w →
      item out [b; c; i; j]
      = sdiv (ssub (item image [b; c; i; j]) (nth c mean szero)) (nth c std szero).
Proof.
  intros Hsize Hmean Hstd HC.
  destruct (view_1_m1_1_1_of_list mean) as (m & Hm & Hms & Hmi); [by destruct mean; subst|].
  destruct (view_1_m1_1_1_of_list std) as (s & Hs & Hss & Hsi); [by destruct std; subst|].
  rewrite Hmean in Hms. rewrite Hstd in Hss.
  eexists _, _. split.
  { unfold Normalize_init. rewrite Hm, Hs. done. }
  unfold Normalize_forward, tensor_sub, tensor_div, tensor_binop. cbn [norm_mean norm_std].
  rewrite Hsize, Hms, broadcast_channels. cbn [mbind result_bind size].
  rewrite Hss, broadcast_channels.
  split; [done|]. split; [done|].
  intros b c i j Hb Hc Hi Hj. cbn [item expand size].
  rewrite Hsize, Hms, Hss. cbn.
  rewrite !(expand_index B b), !(expand_index C c), !(expand_index h i),
    !(expand_index w j) by done.
  rewrite !(decide_True (P := 1 = 1)) by done.
  by rewrite Hmi, Hsi.
Qed.


End NormalizeFacts.

Lemma Normalize_forward_per_channel_witness :
  ∃ self out,
    TorchNormalize_init = Ok self ∧
    Normalize_forward self demo_pixel = Ok out ∧
    size out = [1; 3; 1; 1] ∧
    item out [0; 1; 0; 0]
    = sdiv (ssub (item demo_pixel [0; 1; 0; 0]) (Q2Qc (456 # 1000))) (Q2Qc (224 # 1000)).
Proof.
  destruct (Normalize_forward_per_channel
              [Q2Qc (485 # 1000); Q2Qc (456 # 1000); Q2Qc (406 # 1000)]
              [Q2Qc (229 # 1000); Q2Qc (224 # 1000); Q2Qc (225 # 1000)]
              demo_pixel 1 3 1 1 eq_refl eq_refl eq_refl)
    as (self & out & Hinit & Hfw & Hsize & Hitem); [lia|].
  exists self, out. split; [exact Hinit|]. split; [exact Hfw|]. split; [exact Hsize|].
  apply (Hitem 0 1 0 0); lia.
Defined.

